(** * Emoji co-occurrence graph builder (graph_builder.py)

    A shallow embedding of [GraphBuilder] (parse_emojis, create_nodes,
    build_graph) together with the parts of Python, pandas and networkx
    the class relies on, and the properties of the resulting pair
    counter, frequency counter and graph. *)

From stdpp Require Import gmap strings list sorting lexico.

Local Open Scope string_scope.
Local Open Scope list_scope.
Local Open Scope nat_scope.

(** ** Python values *)

(** A Python [str] is a sequence of Unicode code points. *)
Abbreviation pystr := (list N).

(** Code points of an ASCII literal, to write tokens such as [":a:"]. *)
Definition ord_str (s : string) : pystr :=
  Ascii.N_of_ascii <$> String.list_ascii_of_string s.

(** Cells of a DataFrame column, as far as this development considers
    them: the two missing markers the emojis column holds after read_csv
    or in memory (None, NaN), strings, integers (the rating column, and a
    sample of a malformed emojis cell) and lists of strings (the
    emoji_list column).  The type is a sample of Python's values, not all
    of them: which further values parse_emojis accepts or rejects is not
    stated anywhere below. *)
Inductive pyobj :=
  | PNone
  | PNaN
  | PInt (z : Z)
  | PStr (s : pystr)
  | PList (l : list pystr).

Inductive exn := AttributeError | ValueError | KeyError | TypeError.

(** Computations that may raise. *)
Definition result (A : Type) : Type := exn + A.
Definition ok {A} (x : A) : result A := inr x.
Definition raise {A} (e : exn) : result A := inl e.
Definition bind {A B} (m : result A) (k : A → result B) : result B :=
  match m with
  | inl e => inl e
  | inr x => k x
  end.
Notation "x ←! m ; k" := (bind m (λ x, k))
  (at level 20, m at level 100, k at level 200, right associativity,
   format "x  ←!  m ;  '/' k").

(** [for x in l: acc = f(acc, x)], stopping at the first exception. *)
Fixpoint for_each {A S} (f : S → A → result S) (acc : S) (l : list A)
  : result S :=
  match l with
  | [] => ok acc
  | x :: l' => acc' ←! f acc x; for_each f acc' l'
  end.

(** [Series.apply(f)]: [f] on every cell, in order. *)
Fixpoint apply {A B} (f : A → result B) (l : list A) : result (list B) :=
  match l with
  | [] => ok []
  | x :: l' => y ←! f x; ys ←! apply f l'; ok (y :: ys)
  end.

(** ** str.split() and str.strip() *)

(** [Py_UNICODE_ISSPACE]: the code points Python treats as whitespace. *)
Definition isspace (c : N) : bool :=
  ((9 <=? c) && (c <=? 13) || (28 <=? c) && (c <=? 32)
   || (c =? 133) || (c =? 160) || (c =? 5760)
   || (8192 <=? c) && (c <=? 8202)
   || (c =? 8232) || (c =? 8233) || (c =? 8239) || (c =? 8287)
   || (c =? 12288))%N.

(** [x.split()] with no separator: scan left to right, skip runs of
    whitespace, emit every maximal run of other characters.  [cur] is the
    run being read, most recent character first. *)
Fixpoint split_from (cur : pystr) (s : pystr) : list pystr :=
  match s with
  | [] => match cur with [] => [] | _ => [reverse cur] end
  | c :: s' =>
      if isspace c then
        match cur with
        | [] => split_from [] s'
        | _ => reverse cur :: split_from [] s'
        end
      else split_from (c :: cur) s'
  end.

Definition split (s : pystr) : list pystr := split_from [] s.

Fixpoint lstrip (s : pystr) : pystr :=
  match s with
  | [] => []
  | c :: s' => if isspace c then lstrip s' else s
  end.

Definition rstrip (s : pystr) : pystr := reverse (lstrip (reverse s)).

(** [e.strip()]: drop leading and trailing whitespace. *)
Definition strip (s : pystr) : pystr := rstrip (lstrip s).

(** ** pandas *)

(** [if pd.isna(x)]: a scalar is missing when it is None or NaN; on a list
    pd.isna answers element-wise, and the truth value of that array is
    only defined when it has exactly one element (no str is missing, so
    it is then False); otherwise numpy raises ValueError.  (Before numpy
    2.2 the empty array was falsy with a warning; parse_emojis raises on
    an empty list either way, then from the call of split.) *)
Definition isna_test (x : pyobj) : result bool :=
  match x with
  | PNone | PNaN => ok true
  | PInt _ | PStr _ => ok false
  | PList l => if decide (length l = 1) then ok false else raise ValueError
  end.

(** [x.split()] as a method call: only a str has it. *)
Definition call_split (x : pyobj) : result (list pystr) :=
  match x with
  | PStr s => ok (split s)
  | _ => raise AttributeError
  end.

(** A DataFrame: column name to the column's cells, row by row. *)
Abbreviation DataFrame := (gmap string (list pyobj)).

(** [df[c]] *)
Definition getitem (df : DataFrame) (c : string) : result (list pyobj) :=
  match df !! c with
  | Some col => ok col
  | None => raise KeyError
  end.

(** ** collections.Counter *)

Abbreviation Counter K := (gmap K nat).

(** [c[k]]: a missing key reads as 0. *)
Definition Counter_get `{Countable K} (c : Counter K) (k : K) : nat :=
  default 0 (c !! k).

(** [c[k] += 1] *)
Definition Counter_incr `{Countable K} (c : Counter K) (k : K) : Counter K :=
  <[k := Counter_get c k + 1]> c.

(** [Counter(iterable)] *)
Definition Counter_of `{Countable K} (l : list K) : Counter K :=
  foldl Counter_incr ∅ l.

(** ** Built-ins on the cells *)

(** [len(x)] *)
Definition py_len (x : pyobj) : result nat :=
  match x with
  | PList l => ok (length l)
  | PStr s => ok (length s)
  | _ => raise TypeError
  end.

(** Iterating a cell: a list yields its items, a str its characters. *)
Definition py_iter (x : pyobj) : result (list pystr) :=
  match x with
  | PList l => ok l
  | PStr s => ok ((λ c, [c]) <$> s)
  | _ => raise TypeError
  end.

(** Python compares str by code points, lexicographically. *)
Definition str_lt : relation pystr := lexico.

(** [sorted] places [x] before [y] unless [y < x]. *)
Definition str_le : relation pystr := λ x y, ¬ str_lt y x.

Global Instance str_lt_dec : RelDecision str_lt.
Proof. unfold str_lt. intros x y. apply _. Defined.
Global Instance str_le_dec : RelDecision str_le.
Proof. unfold str_le. intros x y. apply _. Defined.

(** [sorted(set(xs))] *)
Definition sorted_set (xs : list pystr) : list pystr :=
  merge_sort str_le (elements (list_to_set xs : gset pystr)).

(** [itertools.combinations(l, 2)]: the pairs [(l[i], l[j])], [i < j], in
    index order. *)
Fixpoint combinations2 {A} (l : list A) : list (A * A) :=
  match l with
  | [] => []
  | x :: l' => (pair x <$> l') ++ combinations2 l'
  end.

(** ** networkx.Graph *)

(** An attribute dict: attribute name to value. *)
Abbreviation attrs := (gmap string nat).

(** [G._node] maps a node to its attributes, [G._adj] maps a node to its
    neighbours, each with the attributes of the connecting edge. *)
Record Graph := mkGraph {
  _node : gmap pystr attrs;
  _adj : gmap pystr (gmap pystr attrs)
}.

(** [nx.Graph()] *)
Definition empty_graph : Graph := {| _node := ∅; _adj := ∅ |}.

(** The [if u not in self._node] block of add_edge. *)
Definition ensure_node (G : Graph) (u : pystr) : Graph :=
  match _node G !! u with
  | Some _ => G
  | None => {| _node := <[u := ∅]> (_node G); _adj := <[u := ∅]> (_adj G) |}
  end.

(** [G.add_edge(u, v, **attr)]: create missing endpoints, then update the
    edge's attribute dict with [attr] and store it under both directions.
    networkx stores one dict object under [u][v] and [v][u]; add_edge is
    the only writer here and writes both entries, so two equal values
    model the shared object. *)
Definition add_edge (G : Graph) (u v : pystr) (attr : attrs) : Graph :=
  let G1 := ensure_node (ensure_node G u) v in
  let datadict := attr ∪ default ∅ ((_adj G1 !!! u) !! v) in
  let adj1 := <[u := <[v := datadict]> (_adj G1 !!! u)]> (_adj G1) in
  let adj2 := <[v := <[u := datadict]> (adj1 !!! v)]> adj1 in
  {| _node := _node G1; _adj := adj2 |}.

(** One step of set_node_attributes: [G.nodes[n][name] = v], skipped when
    [n] is not a node (the KeyError is swallowed). *)
Definition set_node_attribute (name : string) (G : Graph)
    (nv : pystr * nat) : Graph :=
  match _node G !! nv.1 with
  | Some d => {| _node := <[nv.1 := <[name := nv.2]> d]> (_node G);
                 _adj := _adj G |}
  | None => G
  end.

(** [nx.set_node_attributes(G, values, name)] with a dict [values]. *)
Definition set_node_attributes (G : Graph) (values : Counter pystr)
    (name : string) : Graph :=
  foldl (set_node_attribute name) G (map_to_list values).

(** [G.nodes] *)
Definition nodes (G : Graph) : gset pystr := dom (_node G).

(** [G[u][v]], the attributes of edge [u]-[v] when it exists. *)
Definition edge_data (G : Graph) (u v : pystr) : option attrs :=
  _adj G !! u ≫= (.!! v).

(** [G.has_edge(u, v)] *)
Definition has_edge (G : Graph) (u v : pystr) : Prop :=
  is_Some (edge_data G u v).

(** [G.degree[n]]: the number of neighbours, a self-loop counted twice. *)
Definition degree (G : Graph) (n : pystr) : nat :=
  let nbrs := _adj G !!! n in
  size nbrs + (if decide (is_Some (nbrs !! n)) then 1 else 0).

(** ** GraphBuilder *)

Record GraphBuilder := mkGraphBuilder {
  reviews : DataFrame;
  graph : Graph
}.

(** [GraphBuilder(reviews)]: the DataFrame is kept by reference, so what
    the methods do to [reviews] is what the caller's DataFrame undergoes. *)
Definition __init__ (reviews : DataFrame) : GraphBuilder :=
  {| reviews := reviews; graph := empty_graph |}.

(** [parse_emojis]: the empty list on a missing value, else
    [[e.strip() for e in x.split()]]. *)
Definition parse_emojis (x : pyobj) : result (list pystr) :=
  na ←! isna_test x;
  if (na : bool) then ok []
  else toks ←! call_split x; ok (strip <$> toks).

(** The body of the loop of create_nodes for one cell of [emoji_list]. *)
Definition count_review (edge_counter : Counter (pystr * pystr))
    (emojis : pyobj) : result (Counter (pystr * pystr)) :=
  n ←! py_len emojis;
  if (n <? 2)%nat then ok edge_counter
  else
    items ←! py_iter emojis;
    ok (foldl Counter_incr edge_counter (combinations2 (sorted_set items))).

(** [create_nodes]: write the column [emoji_list], read it back and count
    the pairs of every review.  The new state of the builder is returned
    next to the counter. *)
Definition create_nodes (self : GraphBuilder)
  : result (GraphBuilder * Counter (pystr * pystr)) :=
  col ←! getitem (reviews self) "emojis";
  lists ←! apply parse_emojis col;
  let self := {| reviews := <["emoji_list" := PList <$> lists]> (reviews self);
                 graph := graph self |} in
  emoji_list ←! getitem (reviews self) "emoji_list";
  edge_counter ←! for_each count_review ∅ emoji_list;
  ok (self, edge_counter).

(** [e for emojis in col for e in emojis] *)
Fixpoint chain (col : list pyobj) : result (list pystr) :=
  match col with
  | [] => ok []
  | emojis :: col' => es ←! py_iter emojis; rest ←! chain col'; ok (es ++ rest)
  end.

(** The [emoji_freq] counter of build_graph. *)
Definition emoji_freq (df : DataFrame) : result (Counter pystr) :=
  emoji_list ←! getitem df "emoji_list";
  es ←! chain emoji_list;
  ok (Counter_of es).

(** The edge-adding loop of build_graph over the items of the counter.
    Python walks a dict in insertion order, [map_to_list] in an order of
    its own; [assemble_Permutation] below shows that the order is
    immaterial for the graph. *)
Definition add_edges (G : Graph) (items : list (pystr * pystr * nat)) : Graph :=
  foldl (λ G it, add_edge G it.1.1 it.1.2 {["weight" := it.2]}) G items.

(** [build_graph]: add one weighted edge per entry of the pair counter to
    [self.graph], then set [frequency] on the nodes present. *)
Definition build_graph (self : GraphBuilder) : result (GraphBuilder * Graph) :=
  r ←! create_nodes self;
  let '(self, edge_counter) := r in
  let G := add_edges (graph self) (map_to_list edge_counter) in
  freq ←! emoji_freq (reviews self);
  let G := set_node_attributes G freq "frequency" in
  ok ({| reviews := reviews self; graph := G |}, G).

(** ** Whitespace splitting, declaratively *)

(** A token: a nonempty run of non-whitespace characters. *)
Definition is_token (t : pystr) : Prop :=
  t ≠ [] ∧ Forall (λ c, ¬ isspace c) t.

(** What follows a token: the end of the string or a whitespace. *)
Definition at_boundary (s : pystr) : Prop :=
  match s with
  | [] => True
  | c :: _ => isspace c
  end.

(** [splits s toks]: [s] reads as whitespace, the first token, whitespace,
    the second token, ..., with [toks] the tokens in the order they occur
    (repeats included), each being a maximal whitespace-free run. *)
Inductive splits : pystr → list pystr → Prop :=
  | splits_done ws :
      Forall (λ c, isspace c) ws → splits ws []
  | splits_token ws t rest toks :
      Forall (λ c, isspace c) ws → is_token t → at_boundary rest →
      splits rest toks → splits (ws ++ t ++ rest) (t :: toks).

(** ** Counting, declaratively *)

(** How often [x] occurs in [l]. *)
Definition occurrences `{EqDecision A} (x : A) (l : list A) : nat :=
  length (filter (x =.) l).

(** The set of distinct tokens of one review. *)
Definition token_set (l : list pystr) : gset pystr := list_to_set l.

(** The number of reviews whose token set holds both [a] and [b]. *)
Definition cooccurring_reviews (a b : pystr) (lists : list (list pystr)) : nat :=
  length (filter (λ l, a ∈ token_set l ∧ b ∈ token_set l) lists).

(** The token lists of a corpus: parse_emojis on every cell of [emojis]. *)
Definition parsed_reviews (df : DataFrame) : result (list (list pystr)) :=
  col ←! getitem df "emojis"; apply parse_emojis col.

(** The loop of create_nodes once the cells are known to be lists. *)
Definition count_tokens (edge_counter : Counter (pystr * pystr))
    (emojis : list pystr) : Counter (pystr * pystr) :=
  if (length emojis <? 2)%nat then edge_counter
  else foldl Counter_incr edge_counter (combinations2 (sorted_set emojis)).

(** The count a pair counter holds for the unordered pair of [a] and [b]:
    the entry under the pair's sorted key. *)
Definition pair_count (ec : Counter (pystr * pystr)) (a b : pystr) : nat :=
  if decide (str_lt a b) then Counter_get ec (a, b) else Counter_get ec (b, a).

(** The total number of occurrences of [t] over all token lists. *)
Definition total_occurrences (t : pystr) (lists : list (list pystr)) : nat :=
  sum_list (occurrences t <$> lists).

(** The builder after create_nodes: only the column [emoji_list] of the
    DataFrame has been written. *)
Definition with_emoji_list (self : GraphBuilder) (lists : list (list pystr))
  : GraphBuilder :=
  {| reviews := <["emoji_list" := PList <$> lists]> (reviews self);
     graph := graph self |}.

(** ** Graphs, declaratively *)

(** The two tokens of a key, as an unordered pair. *)
Definition ukey (k : pystr * pystr) : gset pystr := {[ k.1; k.2 ]}.

(** The tokens touched by a list of weighted pairs. *)
Definition endpoints (items : list (pystr * pystr * nat)) : gset pystr :=
  ⋃ (ukey ∘ fst <$> items).

(** The list gives weight [w] to the pair [x], [y] in one of its orders. *)
Definition weight_in (items : list (pystr * pystr * nat)) (x y : pystr)
    (w : nat) : Prop :=
  (x, y, w) ∈ items ∨ (y, x, w) ∈ items.

(** The shape networkx maintains: a node has an adjacency entry and vice
    versa, and an edge carries the same data in both directions. *)
Definition graph_wf (G : Graph) : Prop :=
  dom (_adj G) = dom (_node G) ∧ ∀ u v, edge_data G u v = edge_data G v u.

(** The tokens that occur in some key of a pair counter. *)
Definition paired_tokens (ec : Counter (pystr * pystr)) : gset pystr :=
  endpoints (map_to_list ec).

(** What set_node_attributes does to the attributes of one node. *)
Definition with_attribute (name : string) (values : Counter pystr)
    (n : pystr) (d : attrs) : attrs :=
  match values !! n with
  | Some f => <[name := f]> d
  | None => d
  end.

(** build_graph with the two dict iterations in a given order. *)
Definition assemble (G : Graph) (edge_items : list (pystr * pystr * nat))
    (freq_items : list (pystr * nat)) : Graph :=
  foldl (set_node_attribute "frequency") (add_edges G edge_items) freq_items.

(** The weight a pair counter gives to the unordered pair [x], [y]. *)
Definition pair_weight (ec : Counter (pystr * pystr)) (x y : pystr)
  : option nat :=
  match ec !! (x, y) with
  | Some w => Some w
  | None => ec !! (y, x)
  end.

(** Closed forms of what the pipeline computes from the token lists. *)
Definition pair_counts (lists : list (list pystr)) : Counter (pystr * pystr) :=
  foldl count_tokens ∅ lists.

Definition frequencies (lists : list (list pystr)) : Counter pystr :=
  Counter_of (concat lists).

Definition graph_from (G : Graph) (lists : list (list pystr)) : Graph :=
  set_node_attributes (add_edges G (map_to_list (pair_counts lists)))
    (frequencies lists) "frequency".

(** [t] shares no review with a different token. *)
Definition never_cooccurs (t : pystr) (lists : list (list pystr)) : Prop :=
  ∀ l t', l ∈ lists → t ∈ l → t' ∈ l → t' = t.

(** ** Sample corpora *)

Definition smile : pystr := ord_str ":smile:".
Definition heart : pystr := ord_str ":heart:".
Definition wow : pystr := ord_str ":wow:".
Definition tok_a : pystr := ord_str ":a:".

(** Two reviews with both tokens (one repeating a token), one review with
    a single token, one with the field missing. *)
Definition column_pairs : list pyobj :=
  [ PStr (ord_str ":smile: :heart:");
    PStr (ord_str ":smile: :heart: :smile:");
    PStr (ord_str ":wow:");
    PNaN ].

Definition reviews_pairs : DataFrame := {[ "emojis" := column_pairs ]}.

(** One review that repeats a single token. *)
Definition reviews_repeat : DataFrame :=
  {[ "emojis" := [ PStr (ord_str ":a: :a: :a:") ] ]}.

(** The token lists of the two corpora above. *)
Definition lists_pairs : list (list pystr) :=
  [ [smile; heart]; [smile; heart; smile]; [wow]; [] ].

Definition lists_repeat : list (list pystr) := [ [tok_a; tok_a; tok_a] ].

(** Three reviews over the same three tokens, in varying order and with
    repeats. *)
Definition column_triple : list pyobj :=
  [ PStr (ord_str ":x: :y: :z:");
    PStr (ord_str ":z: :z: :x: :y: :x:");
    PStr (ord_str " :y:  :x: :z: :y: ") ].

Definition reviews_triple : DataFrame := {[ "emojis" := column_triple ]}.

Definition lists_triple : list (list pystr) :=
  [ [ord_str ":x:"; ord_str ":y:"; ord_str ":z:"];
    [ord_str ":z:"; ord_str ":z:"; ord_str ":x:"; ord_str ":y:"; ord_str ":x:"];
    [ord_str ":y:"; ord_str ":x:"; ord_str ":z:"; ord_str ":y:"] ].

(** A corpus with an integer in the emojis column. *)
Definition reviews_int : DataFrame :=
  {[ "emojis" := [ PStr (ord_str ":smile: :heart:"); PInt 5 ] ]}.

(** ** str.join *)

(** [sep.join(l)] *)
Fixpoint join (sep : pystr) (l : list pystr) : pystr :=
  match l with
  | [] => []
  | [x] => x
  | x :: l' => x ++ sep ++ join sep l'
  end.

(** ** BeautifulSoup documents (crawler.py)

    The crawler parses a page with [BeautifulSoup(html_code)] and then only
    walks the resulting tree.  The parse is the library's; the functions
    below are modelled on the parsed document.  A node is a string that
    counts as text or a tag with its name, the tokens of its [class]
    attribute, its other attributes and its children.  Comments and the
    like are left out: neither [find_all] with a tag name nor [.text]
    sees them. *)
Local Set Warnings "-register-all".
Inductive elem :=
  | NavigableString (s : pystr)
  | Tag (name : pystr) (classes : list pystr) (attrs : gmap pystr pystr)
        (children : list elem).

(** [e.descendants]: everything below [e], in document order. *)
Fixpoint descendants (e : elem) : list elem :=
  match e with
  | NavigableString _ => []
  | Tag _ _ _ children =>
      (fix go (l : list elem) : list elem :=
         match l with
         | [] => []
         | c :: l' => c :: descendants c ++ go l'
         end) children
  end.

(** [e.text]: the strings below [e], concatenated. *)
Fixpoint get_text (e : elem) : pystr :=
  match e with
  | NavigableString s => s
  | Tag _ _ _ children =>
      (fix go (l : list elem) : pystr :=
         match l with
         | [] => []
         | c :: l' => get_text c ++ go l'
         end) children
  end.

(** [attrs={'class': cls}] on a multi-valued attribute: one of the tokens
    is [cls], or the tokens joined by a space are. *)
Definition class_matches (cls : pystr) (classes : list pystr) : bool :=
  bool_decide (cls ∈ classes) || bool_decide (join (ord_str " ") classes = cls).

(** The filter of [find_all(name, attrs={'class': cls})]; [cls = None] is
    a search by tag name alone. *)
Definition matches (name : pystr) (cls : option pystr) (e : elem) : bool :=
  match e with
  | NavigableString _ => false
  | Tag n classes _ _ =>
      bool_decide (n = name)
      && match cls with
         | None => true
         | Some c => class_matches c classes
         end
  end.

Definition find_all (name : pystr) (cls : option pystr) (e : elem)
  : list elem :=
  filter (λ d, matches name cls d) (descendants e).

(** [e.find(...)]: the first match, or None. *)
Definition find (name : pystr) (cls : option pystr) (e : elem)
  : option elem :=
  head (find_all name cls e).

(** An attribute access on the result of [find]: AttributeError on None. *)
Definition not_none {A} (x : option A) : result A :=
  match x with
  | Some y => ok y
  | None => raise AttributeError
  end.

(** [tag.attrs[key]] *)
Definition attrs_getitem (e : elem) (key : pystr) : result pystr :=
  match e with
  | Tag _ _ attrs _ =>
      match attrs !! key with
      | Some v => ok v
      | None => raise KeyError
      end
  | NavigableString _ => raise AttributeError
  end.

(** ** HollyshopCrawling: the page parsers *)

(** The loop of crawl_nth_page over the listing items. *)
Fixpoint first_rated_link (divs : list elem) : result (option pystr) :=
  match divs with
  | [] => ok None
  | div :: divs' =>
      match find (ord_str "div") (Some (ord_str "tag-rating")) div with
      | Some _ =>
          a ←! not_none (find (ord_str "a") None div);
          href ←! attrs_getitem a (ord_str "href");
          ok (Some (ord_str "https://hollyshop.ru" ++ href ++ ord_str "reviews/"))
      | None => first_rated_link divs'
      end
  end.

Definition crawl_nth_page (soup_n : elem) : result (option pystr) :=
  first_rated_link
    (find_all (ord_str "div") (Some (ord_str "catalog__list-item")) soup_n).

(** One review record, a dict with the keys name, category, review,
    emojis, rating and url. *)
Record review_record := mkReview {
  r_name : pystr;
  r_category : pystr;
  r_review : pystr;
  r_emojis : pystr;
  r_rating : nat;
  r_url : pystr
}.

(** [f':{alt}:'] *)
Definition emoji_marker (alt : pystr) : pystr :=
  ord_str ":" ++ alt ++ ord_str ":".

(** The [emojis] value of a record: the markers of the [emo] images of
    the review, joined by a space; the empty result set joins to the
    empty string. *)
Definition emojis_of (div : elem) : result pystr :=
  let emojis := find_all (ord_str "img") (Some (ord_str "emo")) div in
  match emojis with
  | [] => ok (join (ord_str " ") [])
  | _ =>
      alts ←! apply (λ emoji, attrs_getitem emoji (ord_str "alt")) emojis;
      ok (join (ord_str " ") (emoji_marker <$> alts))
  end.

(** The body of the loop of crawl_nth_review for one review item. *)
Definition review_of (name category link : pystr) (div : elem)
  : result review_record :=
  body ←! not_none (find (ord_str "div")
                      (Some (ord_str "reviews__list-item-body-content")) div);
  let text := get_text body in
  stars ←! not_none (find (ord_str "div") (Some (ord_str "rating-stars")) div);
  let rating := length (find_all (ord_str "span") None stars) in
  emojis ←! emojis_of div;
  ok {| r_name := name; r_category := category; r_review := strip text;
        r_emojis := emojis; r_rating := rating; r_url := link |}.

Definition crawl_nth_review (soup_n : elem) (link : pystr)
  : result (option (list review_record)) :=
  match find (ord_str "div")
          (Some (ord_str "reviews-page__product-card-name")) soup_n with
  | None => ok None
  | Some name_tag =>
      let name := get_text name_tag in
      cat ←! not_none (find (ord_str "div")
                         (Some (ord_str "reviews-page__product-card-category"))
                         soup_n);
      let category := get_text cat in
      let divs := find_all (ord_str "div")
                    (Some (ord_str "reviews__list-item")) soup_n in
      nth_reviews ←! apply (review_of name category link) divs;
      ok (Some nth_reviews)
  end.

(** [pd.DataFrame(reviews)] on a list of review dicts: one column per
    key, one row per dict; the empty list gives a frame without columns. *)
Definition DataFrame_of_records (recs : list review_record) : DataFrame :=
  match recs with
  | [] => ∅
  | _ =>
      {[ "name" := PStr ∘ r_name <$> recs;
         "category" := PStr ∘ r_category <$> recs;
         "review" := PStr ∘ r_review <$> recs;
         "emojis" := PStr ∘ r_emojis <$> recs;
         "rating" := (λ r, PInt (Z.of_nat (r_rating r))) <$> recs;
         "url" := PStr ∘ r_url <$> recs ]}
  end.

(** A string that neither starts nor ends with whitespace. *)
Definition trimmed (s : pystr) : Prop :=
  match s with [] => True | c :: _ => ¬ isspace c end
  ∧ match last s with None => True | Some c => ¬ isspace c end.

(** [t'] is [t] with the whitespace at its two ends removed. *)
Definition trim_of (t t' : pystr) : Prop :=
  ∃ ws1 ws2,
    t = ws1 ++ t' ++ ws2
    ∧ Forall (λ c, isspace c) ws1 ∧ Forall (λ c, isspace c) ws2
    ∧ trimmed t'.

(** ** Sample pages *)

Definition div_ (cls : string) (children : list elem) : elem :=
  Tag (ord_str "div") [ord_str cls] ∅ children.

Definition emo_ (alt : string) : elem :=
  Tag (ord_str "img") [ord_str "emo"] {[ ord_str "alt" := ord_str alt ]} [].

Definition span_ : elem := Tag (ord_str "span") [] ∅ [].

(** A product page with two reviews, the second without emojis. *)
Definition sample_review_page : elem :=
  Tag (ord_str "[document]") [] ∅
    [ div_ "reviews-page__product-card-name" [NavigableString (ord_str "Cream")];
      div_ "reviews-page__product-card-category"
        [NavigableString (ord_str "Face")];
      div_ "reviews__list-item"
        [ div_ "reviews__list-item-body-content"
            [NavigableString (ord_str "  Great cream ")];
          div_ "rating-stars" [span_; span_; span_; span_; span_];
          emo_ "smile"; emo_ "heart" ];
      div_ "reviews__list-item"
        [ div_ "reviews__list-item-body-content"
            [NavigableString (ord_str "Too oily")];
          div_ "rating-stars" [span_; span_] ] ].

Definition sample_link : pystr := ord_str "https://hollyshop.ru/p/cream/reviews/".

Definition sample_record : review_record :=
  {| r_name := ord_str "Cream"; r_category := ord_str "Face";
     r_review := ord_str "Great cream"; r_emojis := ord_str ":smile: :heart:";
     r_rating := 5; r_url := sample_link |}.

Definition sample_records : list review_record :=
  [ sample_record;
    {| r_name := ord_str "Cream"; r_category := ord_str "Face";
       r_review := ord_str "Too oily"; r_emojis := [];
       r_rating := 2; r_url := sample_link |} ].

(** A listing page: an item without rating, then a rated one. *)
Definition sample_listing_page : elem :=
  Tag (ord_str "[document]") [] ∅
    [ div_ "catalog__list-item"
        [ Tag (ord_str "a") [] {[ ord_str "href" := ord_str "/p/soap/" ]} [] ];
      div_ "catalog__list-item"
        [ div_ "tag-rating" [];
          Tag (ord_str "a") [] {[ ord_str "href" := ord_str "/p/cream/" ]} [] ] ].

(** A builder used before: it holds the graph of an earlier corpus and
    now another set of reviews. *)
Definition builder_reused : GraphBuilder :=
  {| reviews := reviews_triple; graph := graph_from empty_graph lists_pairs |}.

(** A rated listing item without an anchor, and a page where it comes
    before a well-formed rated item. *)
Definition item_no_anchor : elem :=
  div_ "catalog__list-item" [ div_ "tag-rating" [] ].

Definition listing_page_no_anchor : elem :=
  Tag (ord_str "[document]") [] ∅
    [ div_ "catalog__list-item" [];
      item_no_anchor;
      div_ "catalog__list-item"
        [ div_ "tag-rating" [];
          Tag (ord_str "a") [] {[ ord_str "href" := ord_str "/p/cream/" ]} [] ] ].

(** A review item without the body element, and a page where it follows a
    well-formed review. *)
Definition item_no_body : elem :=
  div_ "reviews__list-item" [ div_ "rating-stars" [span_] ].

Definition review_page_bad_item : elem :=
  Tag (ord_str "[document]") [] ∅
    [ div_ "reviews-page__product-card-name" [NavigableString (ord_str "Cream")];
      div_ "reviews-page__product-card-category"
        [NavigableString (ord_str "Face")];
      div_ "reviews__list-item"
        [ div_ "reviews__list-item-body-content"
            [NavigableString (ord_str "Fine")];
          div_ "rating-stars" [span_] ];
      item_no_body ].

Section split_facts.
Implicit Types (s cur t ws rest : pystr) (c : N).

Lemma splits_skip c s toks : isspace c → splits s toks → splits (c :: s) toks.
Proof.
  intros Hc Hs. destruct Hs as [ws Hws | ws t rest toks Hws Ht Hb Hs].
  - apply splits_done. by constructor.
  - change (c :: ws ++ t ++ rest) with ((c :: ws) ++ t ++ rest).
    apply splits_token; auto.
Qed.

Lemma splits_split_from s : ∀ cur,
  Forall (λ c, ¬ isspace c) cur →
  splits (reverse cur ++ s) (split_from cur s).
Proof.
  induction s as [|c s IH]; intros cur Hcur; simpl.
  - destruct cur as [|c0 cur'] eqn:E.
    + apply splits_done. constructor.
    + rewrite <- E in *. rewrite app_nil_r.
      replace (reverse cur) with ([] ++ reverse cur ++ []) at 1
        by (by rewrite app_nil_r).
      apply splits_token; [constructor | | exact I | apply splits_done; constructor].
      split; [subst cur; rewrite reverse_cons; by destruct (reverse cur') |].
      by apply Forall_reverse.
  - destruct (isspace c) eqn:Hc.
    + assert (Hs : splits (c :: s) (split_from [] s)).
      { apply splits_skip; [by rewrite Hc |]. apply (IH []). constructor. }
      destruct cur as [|c0 cur'] eqn:E; [exact Hs |].
      rewrite <- E in *.
      change (reverse cur ++ c :: s) with ([] ++ reverse cur ++ c :: s).
      apply splits_token; [constructor | | simpl; by rewrite Hc | exact Hs].
      split; [subst cur; rewrite reverse_cons; by destruct (reverse cur') |].
      by apply Forall_reverse.
    + specialize (IH (c :: cur)). rewrite reverse_cons, <- app_assoc in IH.
      apply IH. constructor; [rewrite Hc; exact id | done].
Qed.

Lemma splits_split s : splits s (split s).
Proof. apply (splits_split_from s []). constructor. Qed.

Lemma split_from_run t : ∀ cur rest,
  Forall (λ c, ¬ isspace c) t →
  split_from cur (t ++ rest) = split_from (reverse t ++ cur) rest.
Proof.
  induction t as [|c t IH]; intros cur rest Ht; [done |].
  inversion Ht as [|? ? Hc Ht']; subst. simpl.
  destruct (isspace c); [by destruct Hc |].
  rewrite IH by done. by rewrite reverse_cons, <- app_assoc.
Qed.

Lemma split_from_boundary cur rest :
  cur ≠ [] → at_boundary rest →
  split_from cur rest = reverse cur :: split_from [] rest.
Proof.
  intros Hne Hb. destruct rest as [|c rest]; simpl in *.
  - by destruct cur.
  - destruct (isspace c); [by destruct cur | by destruct Hb].
Qed.

Lemma split_skip ws s :
  Forall (λ c, isspace c) ws → split (ws ++ s) = split s.
Proof.
  unfold split. induction 1 as [|c ws Hc _ IH]; [done |]. simpl.
  destruct (isspace c); [done | by destruct Hc].
Qed.

Lemma split_token t rest :
  is_token t → at_boundary rest → split (t ++ rest) = t :: split rest.
Proof.
  intros [Hne Ht] Hb. unfold split.
  rewrite split_from_run, app_nil_r by done.
  rewrite split_from_boundary, reverse_involutive; [done | | done].
  intros E. apply Hne. by rewrite <- (reverse_involutive t), E.
Qed.

Lemma splits_unique s toks : splits s toks → toks = split s.
Proof.
  induction 1 as [ws Hws | ws t rest toks Hws Ht Hb _ IH].
  - rewrite <- (app_nil_r ws). by rewrite split_skip.
  - by rewrite split_skip, split_token, <- IH.
Qed.

Lemma splits_tokens s toks : splits s toks → Forall is_token toks.
Proof. induction 1; by constructor. Qed.

Lemma lstrip_token t : Forall (λ c, ¬ isspace c) t → lstrip t = t.
Proof.
  destruct 1 as [|c t Hc _]; [done |]. simpl.
  destruct (isspace c); [by destruct Hc | done].
Qed.

Lemma strip_token t : Forall (λ c, ¬ isspace c) t → strip t = t.
Proof.
  intros Ht. unfold strip, rstrip. rewrite (lstrip_token t) by done.
  rewrite lstrip_token by (by apply Forall_reverse).
  apply reverse_involutive.
Qed.

Lemma strip_tokens (toks : list pystr) :
  Forall is_token toks → strip <$> toks = toks.
Proof.
  induction 1 as [|t toks [_ Ht] _ IH]; [done |].
  by rewrite fmap_cons, strip_token, IH.
Qed.

Lemma strip_split s : strip <$> split s = split s.
Proof. eapply strip_tokens, splits_tokens, splits_split. Qed.

Lemma parse_emojis_str s : parse_emojis (PStr s) = ok (split s).
Proof. unfold parse_emojis. simpl. by rewrite strip_split. Qed.
End split_facts.

(** ** Counters *)

Section counter_facts.
Context `{Countable K}.
Implicit Types (c : Counter K) (k : K) (l : list K).

Lemma Counter_get_empty k : Counter_get (∅ : Counter K) k = 0.
Proof. unfold Counter_get. by rewrite lookup_empty. Qed.

Lemma Counter_get_incr c k k' :
  Counter_get (Counter_incr c k) k'
  = Counter_get c k' + (if decide (k' = k) then 1 else 0).
Proof.
  unfold Counter_incr, Counter_get at 1. rewrite lookup_insert.
  destruct (decide (k = k')) as [->|Hne].
  - rewrite decide_True by done. done.
  - rewrite decide_False by done. unfold Counter_get. lia.
Qed.

Lemma occurrences_cons k x l :
  occurrences k (x :: l) = (if decide (k = x) then 1 else 0) + occurrences k l.
Proof.
  unfold occurrences. rewrite filter_cons. by destruct (decide (k = x)).
Qed.

Lemma occurrences_app k l1 l2 :
  occurrences k (l1 ++ l2) = occurrences k l1 + occurrences k l2.
Proof. unfold occurrences. by rewrite filter_app, length_app. Qed.

Lemma occurrences_0 k l : k ∉ l → occurrences k l = 0.
Proof.
  induction l as [|x l IH]; [done |]. intros Hk.
  rewrite occurrences_cons, IH by set_solver.
  rewrite decide_False by set_solver. done.
Qed.

Lemma occurrences_pos k l : k ∈ l → 0 < occurrences k l.
Proof.
  induction l as [|x l IH]; [by intros ?%elem_of_nil |].
  rewrite occurrences_cons. intros [->|Hk]%elem_of_cons.
  - rewrite decide_True by done. lia.
  - specialize (IH Hk). lia.
Qed.

Lemma occurrences_NoDup k l : NoDup l → k ∈ l → occurrences k l = 1.
Proof.
  induction 1 as [|x l Hx _ IH]; [by intros ?%elem_of_nil |].
  rewrite occurrences_cons. intros [->|Hk]%elem_of_cons.
  - rewrite decide_True, occurrences_0 by done. done.
  - rewrite decide_False by (intros ->; done). by rewrite IH.
Qed.

Lemma Counter_get_foldl l : ∀ c k,
  Counter_get (foldl Counter_incr c l) k = Counter_get c k + occurrences k l.
Proof.
  induction l as [|x l IH]; intros c k; simpl.
  - unfold occurrences. simpl. lia.
  - rewrite IH, Counter_get_incr, occurrences_cons. lia.
Qed.

Lemma Counter_get_of l k : Counter_get (Counter_of l) k = occurrences k l.
Proof. unfold Counter_of. by rewrite Counter_get_foldl, Counter_get_empty. Qed.

(** Keys are stored with a positive count. *)
Lemma Counter_foldl_lookup l : ∀ c k n,
  (∀ k n, c !! k = Some n → 0 < n) →
  foldl Counter_incr c l !! k = Some n → 0 < n.
Proof.
  induction l as [|x l IH]; intros c k n Hc; simpl; [apply Hc |].
  apply IH. intros k' n'. unfold Counter_incr. rewrite lookup_insert.
  destruct (decide (x = k')); [intros [= <-]; lia | apply Hc].
Qed.

End counter_facts.

(** ** Sorting the token set and pairing *)

Section pair_facts.
Implicit Types (a b t x y : pystr) (l xs : list pystr).

Global Instance str_lt_strict : StrictOrder str_lt.
Proof. unfold str_lt. apply _. Qed.

Lemma str_lt_trichotomy x y : str_lt x y ∨ x = y ∨ str_lt y x.
Proof. unfold str_lt. destruct (trichotomyT lexico x y) as [[?|?]|?]; auto. Qed.

Lemma str_lt_asym x y : str_lt x y → ¬ str_lt y x.
Proof. intros Hxy Hyx. exact (irreflexivity str_lt x (transitivity Hxy Hyx)). Qed.

Lemma str_lt_ne x y : str_lt x y → x ≠ y.
Proof. intros Hxy ->. exact (irreflexivity str_lt y Hxy). Qed.

Global Instance str_le_total : Total str_le.
Proof.
  intros x y. unfold str_le.
  destruct (str_lt_trichotomy x y) as [Hlt|[->|Hlt]].
  - left. by apply str_lt_asym.
  - left. apply irreflexivity, _.
  - right. by apply str_lt_asym.
Qed.

Global Instance str_le_trans : Transitive str_le.
Proof.
  intros x y z Hxy Hyz Hzx. unfold str_le in *.
  destruct (str_lt_trichotomy x y) as [Hlt|[->|Hlt]]; [|done|done].
  apply Hyz. by transitivity x.
Qed.

Lemma sorted_set_elem t xs : t ∈ sorted_set xs ↔ t ∈ xs.
Proof.
  unfold sorted_set. rewrite merge_sort_Permutation, elem_of_elements.
  apply elem_of_list_to_set.
Qed.

Lemma sorted_set_NoDup xs : NoDup (sorted_set xs).
Proof. unfold sorted_set. rewrite merge_sort_Permutation. apply NoDup_elements. Qed.

Lemma StronglySorted_strict l :
  NoDup l → StronglySorted str_le l → StronglySorted str_lt l.
Proof.
  intros Hnd Hs. induction Hs as [|x l _ IH Hx]; [constructor |].
  apply NoDup_cons in Hnd as [Hnx Hnd]. constructor; [by apply IH |].
  apply Forall_forall. intros y Hy.
  rewrite Forall_forall in Hx. specialize (Hx y Hy).
  destruct (str_lt_trichotomy x y) as [?|[->|?]]; done.
Qed.

Lemma sorted_set_sorted xs : StronglySorted str_lt (sorted_set xs).
Proof.
  apply StronglySorted_strict; [apply sorted_set_NoDup |].
  apply StronglySorted_merge_sort; apply _.
Qed.

Lemma StronglySorted_lt_NoDup l : StronglySorted str_lt l → NoDup l.
Proof.
  induction 1 as [|x l _ IH Hx]; constructor; [|done].
  intros Hin. rewrite Forall_forall in Hx.
  exact (irreflexivity str_lt x (Hx x Hin)).
Qed.

Lemma occurrences_pair a b x l :
  occurrences (a, b) (pair x <$> l)
  = if decide (a = x) then occurrences b l else 0.
Proof.
  induction l as [|y l IH]; [by destruct (decide (a = x)) |].
  rewrite fmap_cons, !occurrences_cons, IH.
  destruct (decide (a = x)) as [->|Hne].
  - destruct (decide (b = y)) as [->|Hb].
    + by rewrite decide_True.
    + rewrite decide_False; [done | congruence].
  - rewrite decide_False; [done | congruence].
Qed.

(** A pair is produced once, and only with its smaller token first. *)
Lemma occurrences_combinations2 l a b :
  StronglySorted str_lt l →
  occurrences (a, b) (combinations2 l)
  = if decide (a ∈ l ∧ b ∈ l ∧ str_lt a b) then 1 else 0.
Proof.
  induction 1 as [|x l Hs IH Hx].
  - cbn [combinations2]. rewrite decide_False; [done |].
    intros (Ha & _). by apply elem_of_nil in Ha.
  - cbn [combinations2]. rewrite occurrences_app, occurrences_pair, IH.
    rewrite Forall_forall in Hx.
    assert (Hxl : x ∉ l).
    { intros Hin. exact (irreflexivity str_lt x (Hx x Hin)). }
    destruct (decide (a = x)) as [->|Hne].
    + rewrite (decide_False (P := x ∈ l ∧ _)) by tauto.
      destruct (decide (b ∈ l)) as [Hb|Hb].
      * rewrite occurrences_NoDup by (eauto using StronglySorted_lt_NoDup).
        rewrite decide_True; [done |]. set_solver.
      * rewrite occurrences_0 by done.
        rewrite decide_False; [done |]. intros (_ & Hb' & Hlt).
        apply elem_of_cons in Hb' as [->|?]; [|done].
        exact (irreflexivity str_lt x Hlt).
    + destruct (decide (a ∈ l ∧ b ∈ l ∧ str_lt a b)) as [(Ha & Hb & Hlt)|Hn].
      * rewrite decide_True; [done |]. set_solver.
      * rewrite decide_False; [done |]. intros (Ha & Hb & Hlt). apply Hn.
        apply elem_of_cons in Ha as [->|Ha]; [done |].
        apply elem_of_cons in Hb as [->|Hb]; [|done].
        destruct (str_lt_asym _ _ Hlt (Hx a Ha)).
Qed.

Lemma short_list_no_pair l a b :
  length l < 2 → ¬ (a ∈ l ∧ b ∈ l ∧ str_lt a b).
Proof.
  intros Hlen (Ha & Hb & Hlt).
  destruct l as [|x [|y l]]; simpl in *; [set_solver | | lia].
  apply list_elem_of_singleton in Ha, Hb. subst.
  exact (irreflexivity str_lt x Hlt).
Qed.

Lemma Counter_get_count_tokens c l a b :
  Counter_get (count_tokens c l) (a, b)
  = Counter_get c (a, b)
    + (if decide (a ∈ l ∧ b ∈ l ∧ str_lt a b) then 1 else 0).
Proof.
  unfold count_tokens. destruct (Nat.ltb_spec (length l) 2) as [Hlen|Hlen].
  - rewrite decide_False by (by apply short_list_no_pair). lia.
  - rewrite Counter_get_foldl, occurrences_combinations2
      by apply sorted_set_sorted.
    f_equal. apply decide_ext. by rewrite !sorted_set_elem.
Qed.

Lemma Counter_get_pair_counts lists : ∀ c a b,
  Counter_get (foldl count_tokens c lists) (a, b)
  = Counter_get c (a, b)
    + length (filter (λ l, a ∈ l ∧ b ∈ l ∧ str_lt a b) lists).
Proof.
  induction lists as [|l lists IH]; intros c a b; simpl; [lia |].
  rewrite IH, Counter_get_count_tokens, filter_cons.
  destruct (decide (a ∈ l ∧ b ∈ l ∧ str_lt a b)); simpl; lia.
Qed.

Lemma count_tokens_positive c l :
  (∀ k n, c !! k = Some n → 0 < n) →
  ∀ k n, count_tokens c l !! k = Some n → 0 < n.
Proof.
  intros Hc k n. unfold count_tokens.
  destruct (length l <? 2); [apply Hc |]. by apply Counter_foldl_lookup.
Qed.

Lemma pair_counts_positive lists : ∀ c,
  (∀ k n, c !! k = Some n → 0 < n) →
  ∀ k n, foldl count_tokens c lists !! k = Some n → 0 < n.
Proof.
  induction lists as [|l lists IH]; intros c Hc; simpl; [done |].
  apply IH. by apply count_tokens_positive.
Qed.

Lemma filter_length_le {A} (P : A → Prop) `{∀ z, Decision (P z)} (zs : list A) :
  length (filter P zs) ≤ length zs.
Proof.
  induction zs as [|z zs IH]; [done |]. rewrite filter_cons.
  destruct (decide (P z)); simpl; lia.
Qed.
End pair_facts.

(** ** create_nodes and the frequency counter *)

Section create_nodes_facts.
Implicit Types (self : GraphBuilder) (lists : list (list pystr)).

Lemma for_each_count_review lists : ∀ c,
  for_each count_review c (PList <$> lists) = ok (foldl count_tokens c lists).
Proof.
  induction lists as [|l lists IH]; intros c; [done |].
  rewrite fmap_cons. cbn [for_each foldl].
  replace (count_review c (PList l)) with (ok (count_tokens c l));
    [apply IH |].
  unfold count_review, count_tokens. simpl. by destruct (length l <? 2).
Qed.

Lemma chain_lists lists : chain (PList <$> lists) = ok (concat lists).
Proof.
  induction lists as [|l lists IH]; [done |].
  rewrite fmap_cons. cbn [chain]. by rewrite IH.
Qed.

Lemma create_nodes_ok self lists :
  parsed_reviews (reviews self) = ok lists →
  create_nodes self
  = ok (with_emoji_list self lists, foldl count_tokens ∅ lists).
Proof.
  unfold parsed_reviews, create_nodes. intros Hp.
  destruct (getitem (reviews self) "emojis") as [e|col]; [done |].
  simpl in *. rewrite Hp. simpl.
  unfold getitem. rewrite lookup_insert_eq. simpl.
  by rewrite for_each_count_review.
Qed.

Lemma create_nodes_result self lists self' ec :
  parsed_reviews (reviews self) = ok lists →
  create_nodes self = ok (self', ec) →
  self' = with_emoji_list self lists ∧ ec = foldl count_tokens ∅ lists.
Proof. intros Hp. rewrite (create_nodes_ok _ _ Hp). by intros [= <- <-]. Qed.


Lemma emoji_freq_ok self lists :
  emoji_freq (reviews (with_emoji_list self lists))
  = ok (Counter_of (concat lists)).
Proof.
  unfold emoji_freq, getitem. simpl. rewrite lookup_insert_eq. simpl.
  by rewrite chain_lists.
Qed.

Lemma occurrences_concat (t : pystr) lists :
  occurrences t (concat lists) = total_occurrences t lists.
Proof.
  unfold total_occurrences. induction lists as [|l lists IH]; [done |].
  simpl. by rewrite occurrences_app, IH.
Qed.

Lemma cooccurring_reviews_filter (a b : pystr) lists :
  cooccurring_reviews a b lists
  = length (filter (λ l, a ∈ l ∧ b ∈ l) lists).
Proof.
  unfold cooccurring_reviews. f_equal. apply list_filter_iff.
  intros l. unfold token_set. by rewrite !elem_of_list_to_set.
Qed.

Lemma pair_counts_get lists (a b : pystr) :
  Counter_get (foldl count_tokens ∅ lists) (a, b)
  = if decide (str_lt a b) then cooccurring_reviews a b lists else 0.
Proof.
  rewrite Counter_get_pair_counts, Counter_get_empty.
  rewrite cooccurring_reviews_filter. simpl.
  destruct (decide (str_lt a b)) as [Hlt|Hn].
  - f_equal. apply list_filter_iff. tauto.
  - induction lists as [|l lists IH]; [done |].
    rewrite filter_cons, decide_False by tauto. done.
Qed.

Lemma pair_counts_lookup lists (a b : pystr) n :
  foldl count_tokens ∅ lists !! (a, b) = Some n →
  str_lt a b ∧ n = cooccurring_reviews a b lists ∧ 0 < n.
Proof.
  intros Hl.
  assert (Hpos : ∀ k m, foldl count_tokens (∅ : Counter (pystr * pystr)) lists !! k
                        = Some m → 0 < m).
  { apply pair_counts_positive. intros k m. by rewrite lookup_empty. }
  pose proof (Hpos _ _ Hl) as Hn.
  pose proof (pair_counts_get lists a b) as Hg.
  unfold Counter_get at 1 in Hg. rewrite Hl in Hg. simpl in Hg.
  destruct (decide (str_lt a b)); [done | lia].
Qed.
End create_nodes_facts.

(** ** Graph assembly *)

Section graph_facts.
Implicit Types (G : Graph) (u v x y n : pystr) (a : attrs) (name : string)
  (items : list (pystr * pystr * nat)).

Lemma adj_total_lookup G x y : (_adj G !!! x) !! y = edge_data G x y.
Proof.
  unfold edge_data. rewrite lookup_total_alt.
  destruct (_adj G !! x); simpl; [done | apply lookup_empty].
Qed.

Lemma graph_wf_empty : graph_wf empty_graph.
Proof. split; [simpl; by rewrite !dom_empty_L | done]. Qed.

Lemma graph_eq G1 G2 :
  graph_wf G1 → graph_wf G2 →
  (∀ n, _node G1 !! n = _node G2 !! n) →
  (∀ x y, edge_data G1 x y = edge_data G2 x y) →
  G1 = G2.
Proof.
  intros [Hd1 _] [Hd2 _] Hn He.
  assert (Hnode : _node G1 = _node G2) by (by apply map_eq).
  assert (Hadj : _adj G1 = _adj G2).
  { apply map_eq. intros x.
    destruct (_adj G1 !! x) as [m1|] eqn:E1, (_adj G2 !! x) as [m2|] eqn:E2.
    - f_equal. apply map_eq. intros y. specialize (He x y).
      unfold edge_data in He. by rewrite E1, E2 in He.
    - apply mk_is_Some, elem_of_dom in E1. apply not_elem_of_dom in E2.
      rewrite Hd1, Hnode, <- Hd2 in E1. done.
    - apply mk_is_Some, elem_of_dom in E2. apply not_elem_of_dom in E1.
      rewrite Hd2, <- Hnode, <- Hd1 in E2. done.
    - done. }
  destruct G1, G2. simpl in *. by subst.
Qed.

Lemma ensure_node_node G u n :
  _node (ensure_node G u) !! n
  = if decide (n = u) then Some (default ∅ (_node G !! n)) else _node G !! n.
Proof.
  unfold ensure_node. destruct (_node G !! u) as [d|] eqn:E.
  - destruct (decide (n = u)) as [->|]; [by rewrite E | done].
  - simpl. rewrite lookup_insert.
    destruct (decide (u = n)) as [->|Hne].
    + rewrite decide_True by done. by rewrite E.
    + rewrite decide_False by done. done.
Qed.

Lemma ensure_node_edge_data G u x y :
  graph_wf G → edge_data (ensure_node G u) x y = edge_data G x y.
Proof.
  intros [Hd _]. unfold ensure_node.
  destruct (_node G !! u) as [d|] eqn:E; [done |].
  apply not_elem_of_dom in E. rewrite <- Hd in E. apply not_elem_of_dom in E.
  unfold edge_data. simpl. rewrite lookup_insert.
  destruct (decide (u = x)) as [->|]; [by rewrite E | done].
Qed.

Lemma ensure_node_wf G u : graph_wf G → graph_wf (ensure_node G u).
Proof.
  intros HG. split.
  - destruct HG as [Hd _]. unfold ensure_node.
    destruct (_node G !! u); [done |]. simpl. by rewrite !dom_insert_L, Hd.
  - intros x y. rewrite !ensure_node_edge_data by done. apply HG.
Qed.

Lemma add_edge_node G u v a n :
  _node (add_edge G u v a) !! n
  = if decide (n = u ∨ n = v) then Some (default ∅ (_node G !! n))
    else _node G !! n.
Proof.
  unfold add_edge. simpl. rewrite !ensure_node_node.
  destruct (decide (n = v)) as [Hv|Hv], (decide (n = u)) as [Hu|Hu].
  - rewrite decide_True by auto. done.
  - rewrite decide_True by auto. done.
  - rewrite decide_True by auto. done.
  - rewrite decide_False by tauto. done.
Qed.

Lemma add_edge_edge_data G u v a x y :
  graph_wf G →
  edge_data (add_edge G u v a) x y
  = if decide (x = u ∧ y = v ∨ x = v ∧ y = u)
    then Some (a ∪ default ∅ (edge_data G u v))
    else edge_data G x y.
Proof.
  intros HG.
  assert (HG1 : graph_wf (ensure_node (ensure_node G u) v))
    by auto using ensure_node_wf.
  rewrite <- (adj_total_lookup _ x y). unfold add_edge. simpl.
  rewrite !lookup_total_insert, !adj_total_lookup.
  rewrite !ensure_node_edge_data by auto using ensure_node_wf.
  destruct (decide (v = x)) as [->|Hvx].
  - rewrite lookup_insert. destruct (decide (u = y)) as [->|Huy].
    + by rewrite decide_True by auto.
    + destruct (decide (x = u)) as [->|Hxu].
      * rewrite decide_True by done. rewrite lookup_insert.
        destruct (decide (u = y)); [done |].
        rewrite decide_False by (intros [[_ ->]|[_ ->]]; done).
        rewrite adj_total_lookup. by rewrite !ensure_node_edge_data
          by auto using ensure_node_wf.
      * rewrite decide_False by done.
        rewrite decide_False by (intros [[-> _]|[_ ->]]; done).
        rewrite adj_total_lookup. by rewrite !ensure_node_edge_data
          by auto using ensure_node_wf.
  - destruct (decide (u = x)) as [->|Hux].
    + rewrite lookup_insert. destruct (decide (v = y)) as [->|Hvy].
      * by rewrite decide_True by auto.
      * rewrite decide_False by (intros [[_ ->]|[-> _]]; done).
        rewrite adj_total_lookup. by rewrite !ensure_node_edge_data
          by auto using ensure_node_wf.
    + rewrite decide_False by (intros [[-> _]|[-> _]]; done).
      rewrite adj_total_lookup. by rewrite !ensure_node_edge_data
        by auto using ensure_node_wf.
Qed.

Lemma add_edge_wf G u v a : graph_wf G → graph_wf (add_edge G u v a).
Proof.
  intros HG. split.
  - assert (HG1 : graph_wf (ensure_node (ensure_node G u) v))
      by auto using ensure_node_wf.
    destruct HG1 as [Hd _]. unfold add_edge. simpl.
    rewrite !dom_insert_L, Hd.
    assert (u ∈ dom (_node (ensure_node (ensure_node G u) v))).
    { rewrite elem_of_dom, !ensure_node_node.
      repeat case_decide; first [congruence | by eexists]. }
    assert (v ∈ dom (_node (ensure_node (ensure_node G u) v))).
    { rewrite elem_of_dom, !ensure_node_node.
      repeat case_decide; first [congruence | by eexists]. }
    apply set_eq. intros z. rewrite !elem_of_union, !elem_of_singleton.
    split; [intros [->|[->|?]]; done | auto].
  - intros x y. rewrite !add_edge_edge_data by done.
    destruct (decide (x = u ∧ y = v ∨ x = v ∧ y = u)) as [Hd|Hd].
    + rewrite decide_True by tauto. done.
    + rewrite decide_False by tauto. apply HG.
Qed.

Lemma ukey_swap x y : ukey (y, x) = ukey (x, y).
Proof. unfold ukey. simpl. apply set_eq. intros z. set_unfold. tauto. Qed.

Lemma ukey_match x y u v :
  x = u ∧ y = v ∨ x = v ∧ y = u → ukey (x, y) = ukey (u, v).
Proof. intros [[-> ->]|[-> ->]]; [done | apply ukey_swap]. Qed.

Lemma elem_of_endpoints items n :
  n ∈ endpoints items ↔ ∃ x y w, (x, y, w) ∈ items ∧ (n = x ∨ n = y).
Proof.
  unfold endpoints. rewrite elem_of_union_list. split.
  - intros (X & HX & Hn). apply list_elem_of_fmap in HX as ([[x y] w] & -> & Hin).
    exists x, y, w. split; [done |]. unfold ukey in Hn. simpl in Hn.
    set_unfold. tauto.
  - intros (x & y & w & Hin & Hn). exists (ukey (x, y)). split.
    + apply list_elem_of_fmap. by exists (x, y, w).
    + unfold ukey. simpl. set_unfold. tauto.
Qed.

Lemma endpoints_cons u v w items n :
  n ∈ endpoints ((u, v, w) :: items) ↔ (n = u ∨ n = v) ∨ n ∈ endpoints items.
Proof.
  rewrite !elem_of_endpoints. split.
  - intros (x & y & w' & Hin & Hn). apply elem_of_cons in Hin as [[= -> -> ->]|Hin].
    + by left.
    + right. eauto 6.
  - intros [Hn|(x & y & w' & Hin & Hn)].
    + exists u, v, w. split; [left | done].
    + exists x, y, w'. split; [by right | done].
Qed.

Lemma weight_in_ukey items x y w :
  weight_in items x y w → ukey (x, y) ∈ (ukey ∘ fst <$> items).
Proof.
  intros [Hin|Hin]; apply list_elem_of_fmap.
  - by exists (x, y, w).
  - exists (y, x, w). split; [|done]. simpl. by rewrite ukey_swap.
Qed.

Lemma weight_in_cons u v w0 items x y w :
  weight_in ((u, v, w0) :: items) x y w
  ↔ (x = u ∧ y = v ∨ x = v ∧ y = u) ∧ w = w0 ∨ weight_in items x y w.
Proof.
  unfold weight_in. rewrite !elem_of_cons. split.
  - intros [[[= -> -> ->]|?]|[[= -> -> ->]|?]]; auto.
  - intros [[[[-> ->]|[-> ->]] ->]|[?|?]]; auto.
Qed.

(** The graph after the edge loop, from any well-formed start. *)
Lemma add_edges_spec items : ∀ G,
  graph_wf G → NoDup (ukey ∘ fst <$> items) →
  graph_wf (add_edges G items)
  ∧ (∀ n, _node (add_edges G items) !! n
          = if decide (n ∈ endpoints items)
            then Some (default ∅ (_node G !! n)) else _node G !! n)
  ∧ (∀ x y w, weight_in items x y w →
       edge_data (add_edges G items) x y
       = Some ({["weight" := w]} ∪ default ∅ (edge_data G x y)))
  ∧ (∀ x y, (∀ w, ¬ weight_in items x y w) →
       edge_data (add_edges G items) x y = edge_data G x y).
Proof.
  induction items as [|[[u v] w0] items IH]; intros G HG Hnd.
  - split; [done |]. split; [|split].
    + intros n. rewrite decide_False; [done |].
      rewrite elem_of_endpoints. intros (? & ? & ? & []%elem_of_nil & _).
    + intros x y w [[]%elem_of_nil|[]%elem_of_nil].
    + done.
  - rewrite fmap_cons in Hnd. apply NoDup_cons in Hnd as [Hfresh Hnd].
    simpl in Hfresh.
    pose proof (add_edge_wf G u v {["weight" := w0]} HG) as HG1.
    destruct (IH _ HG1 Hnd) as (Hwf & Hnode & Hhit & Hmiss).
    change (add_edges G ((u, v, w0) :: items))
      with (add_edges (add_edge G u v {["weight" := w0]}) items).
    split; [done |]. split; [|split].
    + intros n. rewrite Hnode, add_edge_node.
      destruct (decide (n ∈ endpoints ((u, v, w0) :: items))) as [Hc|Hc];
        rewrite endpoints_cons in Hc;
        destruct (decide (n ∈ endpoints items)), (decide (n = u ∨ n = v));
        first [done | tauto].
    + intros x y w [[Hxy ->]|Hw]%weight_in_cons.
      * rewrite Hmiss.
        -- rewrite add_edge_edge_data, decide_True by done.
           do 3 f_equal.
           destruct Hxy as [[-> ->]|[-> ->]]; [done | apply HG].
        -- intros w Hw. apply Hfresh.
           rewrite <- (ukey_match _ _ _ _ Hxy). by eapply weight_in_ukey.
      * rewrite (Hhit _ _ _ Hw), add_edge_edge_data by done.
        rewrite decide_False; [done |].
        intros Hxy. apply Hfresh.
        rewrite <- (ukey_match _ _ _ _ Hxy). by eapply weight_in_ukey.
    + intros x y Hno. rewrite Hmiss.
      * rewrite add_edge_edge_data by done.
        rewrite decide_False; [done |]. intros Hxy.
        apply (Hno w0), weight_in_cons. auto.
      * intros w Hw. apply (Hno w), weight_in_cons. auto.
Qed.

Lemma set_node_attribute_node name G k f n :
  _node (set_node_attribute name G (k, f)) !! n
  = if decide (n = k) then <[name := f]> <$> _node G !! n else _node G !! n.
Proof.
  unfold set_node_attribute. simpl.
  destruct (_node G !! k) as [d|] eqn:E; simpl.
  - rewrite lookup_insert. destruct (decide (k = n)) as [->|Hne].
    + rewrite decide_True by done. by rewrite E.
    + rewrite decide_False by done. done.
  - destruct (decide (n = k)) as [->|]; [by rewrite E | done].
Qed.

Lemma set_node_attribute_adj name G kf :
  _adj (set_node_attribute name G kf) = _adj G.
Proof. unfold set_node_attribute. by destruct (_node G !! kf.1). Qed.

Lemma set_attributes_spec name (fitems : list (pystr * nat)) : ∀ G,
  NoDup fitems.*1 →
  _adj (foldl (set_node_attribute name) G fitems) = _adj G
  ∧ ∀ n, _node (foldl (set_node_attribute name) G fitems) !! n
         = with_attribute name (list_to_map fitems) n <$> _node G !! n.
Proof.
  induction fitems as [|[k f] fitems IH]; intros G Hnd.
  - split; [done |]. intros n. unfold with_attribute. simpl.
    rewrite lookup_empty. by destruct (_node G !! n).
  - rewrite fmap_cons in Hnd. apply NoDup_cons in Hnd as [Hk Hnd].
    destruct (IH (set_node_attribute name G (k, f)) Hnd) as [Hadj Hnode].
    cbn [foldl]. split; [by rewrite Hadj, set_node_attribute_adj |].
    intros n. rewrite Hnode, set_node_attribute_node.
    unfold with_attribute. cbn [list_to_map foldr]. simpl.
    destruct (decide (n = k)) as [->|Hne].
    + rewrite lookup_insert_eq.
      rewrite (not_elem_of_list_to_map_1 _ _ Hk).
      by destruct (_node G !! k).
    + by rewrite lookup_insert_ne by done.
Qed.

Lemma set_node_attributes_adj G (values : Counter pystr) name :
  _adj (set_node_attributes G values name) = _adj G.
Proof.
  unfold set_node_attributes.
  apply set_attributes_spec, NoDup_fst_map_to_list.
Qed.

Lemma set_node_attributes_node G (values : Counter pystr) name n :
  _node (set_node_attributes G values name) !! n
  = with_attribute name values n <$> _node G !! n.
Proof.
  unfold set_node_attributes.
  destruct (set_attributes_spec name (map_to_list values) G) as [_ Hn];
    [apply NoDup_fst_map_to_list |].
  by rewrite Hn, list_to_map_to_list.
Qed.

Lemma set_node_attributes_edge_data G (values : Counter pystr) name x y :
  edge_data (set_node_attributes G values name) x y = edge_data G x y.
Proof. unfold edge_data. by rewrite set_node_attributes_adj. Qed.

Lemma set_node_attributes_wf G (values : Counter pystr) name :
  graph_wf G → graph_wf (set_node_attributes G values name).
Proof.
  intros [Hd Hs]. split.
  - rewrite set_node_attributes_adj, Hd. apply set_eq. intros n.
    rewrite !elem_of_dom, set_node_attributes_node.
    by rewrite fmap_is_Some.
  - intros x y. rewrite !set_node_attributes_edge_data. apply Hs.
Qed.

(** The order in which the frequency dict is walked is irrelevant. *)
Lemma set_attributes_Permutation (name : string) G (values : Counter pystr)
    (fitems : list (pystr * nat)) :
  fitems ≡ₚ map_to_list values →
  foldl (set_node_attribute name) G fitems = set_node_attributes G values name.
Proof.
  intros Hp.
  assert (Hnd : NoDup fitems.*1).
  { rewrite Hp. apply NoDup_fst_map_to_list. }
  destruct (set_attributes_spec name fitems G Hnd) as [Hadj Hnode].
  assert (Hmap : (list_to_map fitems : Counter pystr) = values).
  { rewrite <- (list_to_map_to_list values). by apply list_to_map_proper. }
  pose proof (set_node_attributes_adj G values name) as Hadj'.
  assert (Hnode' : _node (foldl (set_node_attribute name) G fitems)
                   = _node (set_node_attributes G values name)).
  { apply map_eq. intros n.
    by rewrite Hnode, set_node_attributes_node, Hmap. }
  destruct (foldl _ G fitems), (set_node_attributes G values name).
  simpl in *. congruence.
Qed.
End graph_facts.

(** ** The pipeline on a corpus *)

Section pipeline_facts.
Implicit Types (self : GraphBuilder) (lists : list (list pystr))
  (a b x y n t : pystr) (G : Graph).

Lemma build_graph_ok self lists :
  parsed_reviews (reviews self) = ok lists →
  build_graph self
  = ok ({| reviews := reviews (with_emoji_list self lists);
           graph := graph_from (graph self) lists |},
        graph_from (graph self) lists).
Proof.
  intros Hp. unfold build_graph. rewrite (create_nodes_ok _ _ Hp).
  cbn [bind ok]. rewrite emoji_freq_ok. done.
Qed.

Lemma parsed_reviews_with_emoji_list self lists :
  parsed_reviews (reviews self) = ok lists →
  parsed_reviews (reviews (with_emoji_list self lists)) = ok lists.
Proof.
  unfold parsed_reviews, getitem. simpl.
  by rewrite lookup_insert_ne by done.
Qed.

Lemma pair_counts_key lists a b w :
  pair_counts lists !! (a, b) = Some w →
  str_lt a b ∧ w = cooccurring_reviews a b lists ∧ 0 < w.
Proof. apply pair_counts_lookup. Qed.

Lemma pair_counts_no_swap lists a b w :
  pair_counts lists !! (a, b) = Some w → pair_counts lists !! (b, a) = None.
Proof.
  intros [Hlt _]%pair_counts_key.
  destruct (pair_counts lists !! (b, a)) as [w'|] eqn:E; [|done].
  apply pair_counts_key in E as [Hlt' _]. destruct (str_lt_asym _ _ Hlt Hlt').
Qed.

Lemma weight_in_pair_counts lists x y w :
  weight_in (map_to_list (pair_counts lists)) x y w
  ↔ pair_weight (pair_counts lists) x y = Some w.
Proof.
  unfold weight_in, pair_weight. rewrite !elem_of_map_to_list.
  destruct (pair_counts lists !! (x, y)) as [w'|] eqn:E.
  - rewrite (pair_counts_no_swap _ _ _ _ E). split; [by intros [?|?] | auto].
  - split; [by intros [?|?] | auto].
Qed.

Lemma ukey_canonical_inj a b x y :
  str_lt a b → str_lt x y → ukey (a, b) = ukey (x, y) → (a, b) = (x, y).
Proof.
  unfold ukey. simpl. intros Hab Hxy Heq.
  assert (Ha : a ∈ ({[x; y]} : gset pystr)).
  { rewrite <- Heq. apply elem_of_union. left. by apply elem_of_singleton. }
  assert (Hb : b ∈ ({[x; y]} : gset pystr)).
  { rewrite <- Heq. apply elem_of_union. right. by apply elem_of_singleton. }
  apply elem_of_union in Ha as [Ha|Ha], Hb as [Hb|Hb];
    apply elem_of_singleton in Ha, Hb; subst.
  - destruct (irreflexivity str_lt _ Hab).
  - done.
  - destruct (str_lt_asym _ _ Hab Hxy).
  - destruct (irreflexivity str_lt _ Hab).
Qed.

Lemma pair_items_NoDup lists :
  NoDup (ukey ∘ fst <$> map_to_list (pair_counts lists)).
Proof.
  rewrite list_fmap_compose. apply NoDup_fmap_2_strong.
  - intros k1 k2 Hin1 Hin2 Heq.
    apply list_elem_of_fmap in Hin1 as ([k1' w1] & Hk1 & Hin1).
    apply list_elem_of_fmap in Hin2 as ([k2' w2] & Hk2 & Hin2).
    simpl in Hk1, Hk2. subst k1' k2'. destruct k1 as [a b], k2 as [x y].
    apply elem_of_map_to_list, pair_counts_key in Hin1 as [H1 _].
    apply elem_of_map_to_list, pair_counts_key in Hin2 as [H2 _].
    by apply ukey_canonical_inj.
  - apply NoDup_fst_map_to_list.
Qed.

Lemma elem_of_paired_tokens lists n :
  n ∈ paired_tokens (pair_counts lists)
  ↔ ∃ m w, pair_weight (pair_counts lists) n m = Some w.
Proof.
  unfold paired_tokens. rewrite elem_of_endpoints. split.
  - intros (x & y & w & Hin & [-> | ->]).
    + exists y, w. apply weight_in_pair_counts. by left.
    + exists x, w. apply weight_in_pair_counts. by right.
  - intros (m & w & [Hin|Hin]%weight_in_pair_counts); eauto 10.
Qed.

Lemma cooccurring_reviews_pos a b lists :
  0 < cooccurring_reviews a b lists → ∃ l, l ∈ lists ∧ a ∈ l ∧ b ∈ l.
Proof.
  rewrite cooccurring_reviews_filter. intros Hpos.
  destruct (filter (λ l, a ∈ l ∧ b ∈ l) lists) as [|l ls] eqn:E;
    [simpl in Hpos; lia |].
  assert (Hl : l ∈ filter (λ l, a ∈ l ∧ b ∈ l) lists) by (rewrite E; left).
  apply list_elem_of_filter in Hl as [[Ha Hb] Hl]. eauto.
Qed.

Lemma pair_weight_cooccur lists x y w :
  pair_weight (pair_counts lists) x y = Some w →
  x ≠ y ∧ ∃ l, l ∈ lists ∧ x ∈ l ∧ y ∈ l.
Proof.
  unfold pair_weight.
  destruct (pair_counts lists !! (x, y)) as [w'|] eqn:E.
  - intros _. apply pair_counts_key in E as (Hlt & -> & Hpos).
    split; [by apply str_lt_ne | by apply cooccurring_reviews_pos].
  - intros (Hlt & -> & Hpos)%pair_counts_key. split.
    + intros ->. destruct (irreflexivity str_lt _ Hlt).
    + apply cooccurring_reviews_pos in Hpos as (l & ? & ? & ?). eauto.
Qed.


Lemma frequencies_lookup lists t :
  frequencies lists !! t
  = if decide (0 < total_occurrences t lists)
    then Some (total_occurrences t lists) else None.
Proof.
  pose proof (Counter_get_of (concat lists) t) as Hg.
  rewrite occurrences_concat in Hg. fold (frequencies lists) in Hg.
  assert (Hpos : ∀ k m, frequencies lists !! k = Some m → 0 < m).
  { intros k m. unfold frequencies, Counter_of. apply Counter_foldl_lookup.
    intros k' m'. by rewrite lookup_empty. }
  unfold Counter_get in Hg.
  destruct (frequencies lists !! t) as [f|] eqn:E; simpl in Hg; subst.
  - rewrite decide_True; [done | by eapply Hpos].
  - rewrite <- Hg. by rewrite decide_False by lia.
Qed.

Lemma elem_of_concat lists t : t ∈ concat lists ↔ ∃ l, l ∈ lists ∧ t ∈ l.
Proof.
  induction lists as [|l0 lists IH]; simpl.
  - split; [by intros ?%elem_of_nil | by intros (? & ?%elem_of_nil & _)].
  - rewrite elem_of_app, IH. split.
    + intros [Ht|(l & Hl & Ht)]; [exists l0 | exists l];
        (split; [|done]); [left | by right].
    + intros (l & [->|Hl]%elem_of_cons & Ht); eauto.
Qed.

Lemma total_occurrences_pos lists t l :
  l ∈ lists → t ∈ l → 0 < total_occurrences t lists.
Proof.
  intros Hl Ht. rewrite <- occurrences_concat. apply occurrences_pos.
  apply elem_of_concat. eauto.
Qed.

Lemma elem_of_dom_frequencies lists t :
  t ∈ dom (frequencies lists) ↔ ∃ l, l ∈ lists ∧ t ∈ l.
Proof.
  rewrite elem_of_dom, frequencies_lookup. split.
  - destruct (decide (0 < total_occurrences t lists)) as [Hpos|];
      [intros _ | by intros [? ?]].
    rewrite <- occurrences_concat in Hpos.
    destruct (decide (t ∈ concat lists)) as [Hin|Hn].
    + apply elem_of_concat in Hin as (l & ? & ?). eauto.
    + rewrite occurrences_0 in Hpos by done. lia.
  - intros (l & Hl & Ht).
    rewrite decide_True by (by eapply total_occurrences_pos). eauto.
Qed.

Lemma graph_from_wf G lists : graph_wf G → graph_wf (graph_from G lists).
Proof.
  intros HG. apply set_node_attributes_wf.
  by apply add_edges_spec; [|apply pair_items_NoDup].
Qed.

Lemma graph_from_node G lists n :
  graph_wf G →
  _node (graph_from G lists) !! n
  = with_attribute "frequency" (frequencies lists) n
    <$> (if decide (n ∈ paired_tokens (pair_counts lists))
         then Some (default ∅ (_node G !! n)) else _node G !! n).
Proof.
  intros HG. unfold graph_from. rewrite set_node_attributes_node.
  destruct (add_edges_spec (map_to_list (pair_counts lists)) G HG
              (pair_items_NoDup lists)) as (_ & Hn & _).
  by rewrite Hn.
Qed.

Lemma graph_from_edge_data G lists x y :
  graph_wf G →
  edge_data (graph_from G lists) x y
  = match pair_weight (pair_counts lists) x y with
    | Some w => Some ({["weight" := w]} ∪ default ∅ (edge_data G x y))
    | None => edge_data G x y
    end.
Proof.
  intros HG. unfold graph_from. rewrite set_node_attributes_edge_data.
  destruct (add_edges_spec (map_to_list (pair_counts lists)) G HG
              (pair_items_NoDup lists)) as (_ & _ & Hhit & Hmiss).
  destruct (pair_weight (pair_counts lists) x y) as [w|] eqn:E.
  - apply Hhit. by apply weight_in_pair_counts.
  - apply Hmiss. intros w Hw%weight_in_pair_counts. congruence.
Qed.

(** The graph a fresh builder returns. *)
Lemma fresh_graph_node lists n :
  _node (graph_from empty_graph lists) !! n
  = if decide (n ∈ paired_tokens (pair_counts lists))
    then Some {["frequency" := total_occurrences n lists]} else None.
Proof.
  rewrite graph_from_node by apply graph_wf_empty. simpl.
  rewrite lookup_empty.
  destruct (decide (n ∈ paired_tokens (pair_counts lists))) as [Hn|]; [|done].
  simpl. f_equal. unfold with_attribute. rewrite frequencies_lookup.
  apply elem_of_paired_tokens in Hn as (m & w & Hw).
  apply pair_weight_cooccur in Hw as (_ & l & Hl & Hn & _).
  rewrite decide_True by (by eapply total_occurrences_pos).
  apply insert_empty.
Qed.

Lemma fresh_graph_edge_data lists x y :
  edge_data (graph_from empty_graph lists) x y
  = (λ w, {["weight" := w]}) <$> pair_weight (pair_counts lists) x y.
Proof.
  rewrite graph_from_edge_data by apply graph_wf_empty.
  destruct (pair_weight (pair_counts lists) x y); simpl; [|done].
  unfold edge_data. simpl. rewrite lookup_empty. simpl.
  by rewrite (right_id_L ∅ (∪)).
Qed.

(** Running the assembly again on its own result changes nothing. *)
Lemma graph_from_idemp lists :
  graph_from (graph_from empty_graph lists) lists
  = graph_from empty_graph lists.
Proof.
  pose proof (graph_from_wf _ lists graph_wf_empty) as Hwf.
  apply graph_eq; [by apply graph_from_wf | done | |].
  - intros n. rewrite graph_from_node by done. rewrite fresh_graph_node.
    destruct (decide (n ∈ paired_tokens (pair_counts lists))) as [Hn|]; [|done].
    simpl. f_equal. unfold with_attribute. rewrite frequencies_lookup.
    destruct (decide (0 < total_occurrences n lists)); [|done].
    apply insert_insert_eq.
  - intros x y. rewrite graph_from_edge_data by done.
    rewrite fresh_graph_edge_data.
    destruct (pair_weight (pair_counts lists) x y); simpl; [|done].
    by rewrite (idemp_L (∪)).
Qed.

(** The order in which the pair counter is walked is irrelevant. *)
Lemma add_edges_Permutation G lists (eitems : list (pystr * pystr * nat)) :
  graph_wf G → eitems ≡ₚ map_to_list (pair_counts lists) →
  add_edges G eitems = add_edges G (map_to_list (pair_counts lists)).
Proof.
  intros HG Hp.
  assert (Hnd : NoDup (ukey ∘ fst <$> eitems)).
  { rewrite Hp. apply pair_items_NoDup. }
  destruct (add_edges_spec eitems G HG Hnd) as (Hwf1 & Hn1 & Hhit1 & Hmiss1).
  destruct (add_edges_spec _ G HG (pair_items_NoDup lists))
    as (Hwf2 & Hn2 & Hhit2 & Hmiss2).
  assert (Hw : ∀ x y w, weight_in eitems x y w
               ↔ weight_in (map_to_list (pair_counts lists)) x y w).
  { intros x y w. unfold weight_in. by rewrite Hp. }
  apply graph_eq; [done.. | |].
  - intros n. rewrite Hn1, Hn2. apply decide_ext.
    rewrite !elem_of_endpoints. by setoid_rewrite Hp.
  - intros x y.
    destruct (pair_weight (pair_counts lists) x y) as [w|] eqn:E.
    + apply weight_in_pair_counts in E.
      rewrite (Hhit2 _ _ _ E). apply Hhit1. by apply Hw.
    + rewrite Hmiss1, Hmiss2; [done | |].
      * intros w Hin%weight_in_pair_counts. congruence.
      * intros w Hin%Hw%weight_in_pair_counts. congruence.
Qed.

Lemma assemble_Permutation lists (eitems : list (pystr * pystr * nat))
    (fitems : list (pystr * nat)) :
  eitems ≡ₚ map_to_list (pair_counts lists) →
  fitems ≡ₚ map_to_list (frequencies lists) →
  assemble empty_graph eitems fitems = graph_from empty_graph lists.
Proof.
  intros He Hf. unfold assemble, graph_from.
  rewrite (set_attributes_Permutation _ _ _ _ Hf).
  by rewrite (add_edges_Permutation _ lists) by (apply graph_wf_empty || done).
Qed.

Lemma apply_length {A B} (f : A → result B) (l : list A) (ys : list B) :
  apply f l = ok ys → length ys = length l.
Proof.
  revert ys. induction l as [|z l IH]; intros ys; simpl.
  - by intros [= <-].
  - destruct (f z) as [e|w]; [done |]. simpl.
    destruct (apply f l) as [e|ws]; [done |]. simpl.
    intros [= <-]. simpl. by rewrite (IH ws).
Qed.

Lemma apply_raises {A B} (f : A → result B) (l : list A) (z : A) e :
  z ∈ l → f z = raise e → ∃ e', apply f l = raise e'.
Proof.
  intros Hin Hz. induction l as [|z0 l IH]; [by apply elem_of_nil in Hin |].
  simpl. destruct (f z0) as [e0|w] eqn:E0; [by exists e0 |]. simpl.
  apply elem_of_cons in Hin as [->|Hin]; [unfold raise in Hz; congruence |].
  destruct (IH Hin) as [e' ->]. by exists e'.
Qed.

Lemma never_cooccurs_unpaired lists t :
  never_cooccurs t lists → t ∉ paired_tokens (pair_counts lists).
Proof.
  intros Hnc (m & w & Hw)%elem_of_paired_tokens.
  apply pair_weight_cooccur in Hw as (Hne & l & Hl & Ht & Hm).
  apply Hne. symmetry. by eapply Hnc.
Qed.

Lemma fresh_graph_nodes lists :
  nodes (graph_from empty_graph lists) = paired_tokens (pair_counts lists).
Proof.
  apply set_eq. intros n. unfold nodes.
  rewrite elem_of_dom, fresh_graph_node.
  destruct (decide (n ∈ paired_tokens (pair_counts lists))); split;
    first [done | by eexists | by intros [? ?]].
Qed.


Lemma fresh_graph_no_self_loop lists n :
  ¬ has_edge (graph_from empty_graph lists) n n.
Proof.
  unfold has_edge. rewrite fresh_graph_edge_data.
  destruct (pair_weight (pair_counts lists) n n) as [w|] eqn:E.
  - apply pair_weight_cooccur in E as [Hne _]. done.
  - by intros [? ?].
Qed.


(** A review that repeats one token adds no pair. *)
Lemma pair_counts_repeat lists1 lists2 :
  pair_counts (lists1 ++ [tok_a; tok_a; tok_a] :: lists2)
  = pair_counts (lists1 ++ lists2).
Proof. unfold pair_counts. by rewrite !foldl_app. Qed.

Lemma total_occurrences_repeat lists1 lists2 :
  total_occurrences tok_a (lists1 ++ [tok_a; tok_a; tok_a] :: lists2)
  = total_occurrences tok_a (lists1 ++ lists2) + 3.
Proof.
  unfold total_occurrences. rewrite !fmap_app, fmap_cons, !sum_list_with_app.
  simpl. replace (occurrences tok_a [tok_a; tok_a; tok_a]) with 3 by done.
  lia.
Qed.
End pipeline_facts.

(** ** Worked examples *)

Example split_example :
  split (ord_str "  :a:  :b: :a: ") = [tok_a; ord_str ":b:"; tok_a].
Proof. vm_compute. reflexivity. Qed.

Example parsed_reviews_pairs : parsed_reviews reviews_pairs = ok lists_pairs.
Proof. vm_compute. reflexivity. Qed.

(** Two reviews hold both tokens; the third token stays out of the graph. *)
Example create_nodes_pairs :
  (r ←! create_nodes (__init__ reviews_pairs); ok (map_to_list r.2))
  = ok [ ((heart, smile), 2) ].
Proof. vm_compute. reflexivity. Qed.

Example emoji_freq_pairs :
  (r ←! create_nodes (__init__ reviews_pairs);
   freq ←! emoji_freq (reviews r.1);
   ok (freq !! smile, freq !! heart, freq !! wow, size freq))
  = ok (Some 3, Some 2, Some 1, 3).
Proof. vm_compute. reflexivity. Qed.

Example build_graph_pairs :
  let G := graph_from empty_graph lists_pairs in
  build_graph (__init__ reviews_pairs)
  = ok ({| reviews := reviews (with_emoji_list (__init__ reviews_pairs) lists_pairs);
           graph := G |}, G)
  ∧ nodes G = {[ heart; smile ]}
  ∧ _node G !! smile = Some {[ "frequency" := 3 ]}
  ∧ _node G !! heart = Some {[ "frequency" := 2 ]}
  ∧ _node G !! wow = None
  ∧ edge_data G heart smile = Some {[ "weight" := 2 ]}
  ∧ edge_data G smile heart = Some {[ "weight" := 2 ]}
  ∧ degree G smile = 1.
Proof.
  split; [apply (build_graph_ok (__init__ reviews_pairs)), parsed_reviews_pairs |].
  repeat split; vm_compute; reflexivity.
Qed.

Example create_nodes_repeat :
  (r ←! create_nodes (__init__ reviews_repeat);
   freq ←! emoji_freq (reviews r.1);
   ok (map_to_list r.2, map_to_list freq))
  = ok ([], [ (tok_a, 3) ]).
Proof. vm_compute. reflexivity. Qed.

Example create_nodes_triple :
  (r ←! create_nodes (__init__ reviews_triple);
   ok (r.2 !! (ord_str ":x:", ord_str ":y:"),
       r.2 !! (ord_str ":x:", ord_str ":z:"),
       r.2 !! (ord_str ":y:", ord_str ":z:"),
       size r.2))
  = ok (Some 3, Some 3, Some 3, 3).
Proof. vm_compute. reflexivity. Qed.

(** ** Properties of the specification *)

(** C2: for every corpus and every token [t], the frequency counter of
    build_graph maps [t] to the total number of occurrences of [t] over
    all parsed token lists, a repeat within one review counting each
    time. *)
Theorem emoji_freq_total_occurrences (self : GraphBuilder)
    (lists : list (list pystr)) :
  parsed_reviews (reviews self) = ok lists →
  ∃ self' ec freq G,
    create_nodes self = ok (self', ec)
    ∧ emoji_freq (reviews self') = ok freq
    ∧ build_graph self
      = ok ({| reviews := reviews self'; graph := G |}, G)
    ∧ G = set_node_attributes
            (add_edges (graph self') (map_to_list ec)) freq "frequency"
    ∧ ∀ t, Counter_get freq t = total_occurrences t lists.
Proof.
  intros Hp. eexists _, _, _, _. split; [by apply create_nodes_ok |].
  split; [apply emoji_freq_ok |].
  split; [by apply build_graph_ok |].
  split; [done |].
  intros t. by rewrite Counter_get_of, occurrences_concat.
Qed.

Lemma emoji_freq_total_occurrences_witness :
  ∃ self' ec freq G,
    create_nodes (__init__ reviews_pairs) = ok (self', ec)
    ∧ emoji_freq (reviews self') = ok freq
    ∧ build_graph (__init__ reviews_pairs)
      = ok ({| reviews := reviews self'; graph := G |}, G)
    ∧ G = set_node_attributes
            (add_edges (graph self') (map_to_list ec)) freq "frequency"
    ∧ ∀ t, Counter_get freq t = total_occurrences t lists_pairs.
Proof.
  apply (emoji_freq_total_occurrences (__init__ reviews_pairs) lists_pairs).
  vm_compute. reflexivity.
Defined.

(** C3: for every corpus, the nodes of the graph build_graph returns are
    exactly the tokens occurring in some key of the pair counter; the
    frequency attribute sits on those nodes and nowhere else; a token that
    never shares a review with another token is not in the graph although
    its frequency is positive.  A review ":a: :a: :a:" anywhere in the
    corpus adds no pair, adds 3 to the frequency of ":a:", and does not
    bring ":a:" into the graph. *)
Theorem build_graph_nodes_are_paired_tokens (df : DataFrame)
    (lists : list (list pystr)) :
  parsed_reviews df = ok lists →
  ∃ self1 ec freq self2 G,
    create_nodes (__init__ df) = ok (self1, ec)
    ∧ emoji_freq (reviews self1) = ok freq
    ∧ build_graph (__init__ df) = ok (self2, G)
    ∧ nodes G = paired_tokens ec
    ∧ (∀ n, n ∈ paired_tokens ec
            ↔ ∃ m w, ec !! (n, m) = Some w ∨ ec !! (m, n) = Some w)
    ∧ (∀ n, _node G !! n
            = if decide (n ∈ nodes G)
              then Some {["frequency" := Counter_get freq n]} else None)
    ∧ (∀ t, never_cooccurs t lists → t ∉ nodes G)
    ∧ (∀ t l, l ∈ lists → t ∈ l → 0 < Counter_get freq t)
    ∧ (∀ lists1 lists2,
         lists = lists1 ++ [tok_a; tok_a; tok_a] :: lists2 →
         ec = pair_counts (lists1 ++ lists2)
         ∧ Counter_get freq tok_a
           = total_occurrences tok_a (lists1 ++ lists2) + 3
         ∧ (never_cooccurs tok_a (lists1 ++ lists2) → tok_a ∉ nodes G)).
Proof.
  intros Hp.
  exists (with_emoji_list (__init__ df) lists), (pair_counts lists),
    (frequencies lists),
    {| reviews := reviews (with_emoji_list (__init__ df) lists);
       graph := graph_from empty_graph lists |},
    (graph_from empty_graph lists).
  assert (Hfreq : ∀ t, Counter_get (frequencies lists) t
                       = total_occurrences t lists).
  { intros t. unfold frequencies. by rewrite Counter_get_of, occurrences_concat. }
  split; [by apply create_nodes_ok |].
  split; [apply emoji_freq_ok |].
  split; [by apply (build_graph_ok (__init__ df)) |].
  split; [apply fresh_graph_nodes |].
  split.
  { intros n. rewrite elem_of_paired_tokens. unfold pair_weight. split.
    - intros (m & w & Hw). exists m, w.
      destruct (pair_counts lists !! (n, m)); auto.
    - intros (m & w & [Hw|Hw]).
      + exists m, w. by rewrite Hw.
      + exists m, w. destruct (pair_counts lists !! (n, m)) as [w'|] eqn:E; [|done].
        by rewrite (pair_counts_no_swap _ _ _ _ Hw) in E. }
  split.
  { intros n. rewrite fresh_graph_node, fresh_graph_nodes, Hfreq. done. }
  split.
  { intros t Hnc. rewrite fresh_graph_nodes. by apply never_cooccurs_unpaired. }
  split.
  { intros t l Hl Ht. rewrite Hfreq. by eapply total_occurrences_pos. }
  intros lists1 lists2 ->.
  split; [apply pair_counts_repeat |].
  split; [by rewrite Hfreq, total_occurrences_repeat |].
  intros Hnc. rewrite fresh_graph_nodes, pair_counts_repeat.
  by apply never_cooccurs_unpaired.
Qed.

Lemma build_graph_nodes_are_paired_tokens_witness :
  ∃ self1 ec freq self2 G,
    create_nodes (__init__ reviews_repeat) = ok (self1, ec)
    ∧ emoji_freq (reviews self1) = ok freq
    ∧ build_graph (__init__ reviews_repeat) = ok (self2, G)
    ∧ nodes G = paired_tokens ec
    ∧ (∀ n, n ∈ paired_tokens ec
            ↔ ∃ m w, ec !! (n, m) = Some w ∨ ec !! (m, n) = Some w)
    ∧ (∀ n, _node G !! n
            = if decide (n ∈ nodes G)
              then Some {["frequency" := Counter_get freq n]} else None)
    ∧ (∀ t, never_cooccurs t lists_repeat → t ∉ nodes G)
    ∧ (∀ t l, l ∈ lists_repeat → t ∈ l → 0 < Counter_get freq t)
    ∧ (∀ lists1 lists2,
         lists_repeat = lists1 ++ [tok_a; tok_a; tok_a] :: lists2 →
         ec = pair_counts (lists1 ++ lists2)
         ∧ Counter_get freq tok_a
           = total_occurrences tok_a (lists1 ++ lists2) + 3
         ∧ (never_cooccurs tok_a (lists1 ++ lists2) → tok_a ∉ nodes G)).
Proof.
  apply (build_graph_nodes_are_paired_tokens reviews_repeat lists_repeat).
  vm_compute. reflexivity.
Defined.

(** C7: for every corpus, every key of the pair counter create_nodes
    returns is a pair of two distinct tokens in lexicographic order, so no
    pair is stored under both of its orders and no key pairs a token with
    itself; the assembled graph has no self-loop. *)
Theorem pair_counter_keys_canonical (df : DataFrame)
    (lists : list (list pystr)) :
  parsed_reviews df = ok lists →
  ∃ self1 ec self2 G,
    create_nodes (__init__ df) = ok (self1, ec)
    ∧ build_graph (__init__ df) = ok (self2, G)
    ∧ (∀ a b w, ec !! (a, b) = Some w →
         str_lt a b ∧ a ≠ b ∧ ec !! (b, a) = None)
    ∧ (∀ a w, ec !! (a, a) ≠ Some w)
    ∧ (∀ n, ¬ has_edge G n n).
Proof.
  intros Hp. eexists _, _, _, _.
  split; [by apply create_nodes_ok |].
  split; [by apply (build_graph_ok (__init__ df)) |].
  split; [|split].
  - intros a b w Hw. fold (pair_counts lists) in Hw.
    pose proof (pair_counts_key _ _ _ _ Hw) as [Hlt _].
    split; [done |]. split; [by apply str_lt_ne |].
    by eapply pair_counts_no_swap.
  - intros a w Hw. fold (pair_counts lists) in Hw.
    apply pair_counts_key in Hw as [Hlt _].
    exact (irreflexivity str_lt a Hlt).
  - apply fresh_graph_no_self_loop.
Qed.

Lemma pair_counter_keys_canonical_witness :
  ∃ self1 ec self2 G,
    create_nodes (__init__ reviews_pairs) = ok (self1, ec)
    ∧ build_graph (__init__ reviews_pairs) = ok (self2, G)
    ∧ (∀ a b w, ec !! (a, b) = Some w →
         str_lt a b ∧ a ≠ b ∧ ec !! (b, a) = None)
    ∧ (∀ a w, ec !! (a, a) ≠ Some w)
    ∧ (∀ n, ¬ has_edge G n n).
Proof.
  apply (pair_counter_keys_canonical reviews_pairs lists_pairs).
  vm_compute. reflexivity.
Defined.



(** C9: the pipeline is deterministic and idempotent.  Running build_graph
    again on the same builder, or from a new builder on the DataFrame the
    first run left, returns the same graph (same nodes, edges and
    attributes), and assembling the graph from the pair counter and the
    frequency counter gives that graph in whatever order their entries
    are walked. *)
Theorem build_graph_deterministic (df : DataFrame)
    (lists : list (list pystr)) :
  parsed_reviews df = ok lists →
  ∃ self1 ec freq self2 G,
    create_nodes (__init__ df) = ok (self1, ec)
    ∧ emoji_freq (reviews self1) = ok freq
    ∧ build_graph (__init__ df) = ok (self2, G)
    ∧ build_graph self2 = ok (self2, G)
    ∧ build_graph (__init__ (reviews self2)) = ok (self2, G)
    ∧ (∀ eitems fitems,
         eitems ≡ₚ map_to_list ec → fitems ≡ₚ map_to_list freq →
         assemble empty_graph eitems fitems = G).
Proof.
  intros Hp.
  exists (with_emoji_list (__init__ df) lists), (pair_counts lists),
    (frequencies lists),
    {| reviews := reviews (with_emoji_list (__init__ df) lists);
       graph := graph_from empty_graph lists |},
    (graph_from empty_graph lists).
  pose proof (parsed_reviews_with_emoji_list (__init__ df) lists Hp) as Hp'.
  split; [by apply create_nodes_ok |].
  split; [apply emoji_freq_ok |].
  split; [by apply (build_graph_ok (__init__ df)) |].
  split; [|split].
  - rewrite (build_graph_ok _ lists) by done. simpl.
    by rewrite insert_insert_eq, graph_from_idemp.
  - rewrite (build_graph_ok _ lists) by done. simpl.
    by rewrite insert_insert_eq.
  - intros eitems fitems. apply assemble_Permutation.
Qed.

Lemma build_graph_deterministic_witness :
  ∃ self1 ec freq self2 G,
    create_nodes (__init__ reviews_pairs) = ok (self1, ec)
    ∧ emoji_freq (reviews self1) = ok freq
    ∧ build_graph (__init__ reviews_pairs) = ok (self2, G)
    ∧ build_graph self2 = ok (self2, G)
    ∧ build_graph (__init__ (reviews self2)) = ok (self2, G)
    ∧ (∀ eitems fitems,
         eitems ≡ₚ map_to_list ec → fitems ≡ₚ map_to_list freq →
         assemble empty_graph eitems fitems = G).
Proof.
  apply (build_graph_deterministic reviews_pairs lists_pairs).
  vm_compute. reflexivity.
Defined.

(** C10: on a string, every token parse_emojis returns is nonempty and
    free of whitespace; a string of whitespace only gives the empty list;
    and stripping changes no token produced by the split. *)
Theorem parse_emojis_tokens_clean (x : pystr) :
  ∃ toks,
    parse_emojis (PStr x) = ok toks
    ∧ Forall is_token toks
    ∧ (Forall (λ c, isspace c) x → toks = [])
    ∧ toks = split x
    ∧ Forall (λ t, strip t = t) (split x).
Proof.
  exists (split x).
  pose proof (splits_tokens _ _ (splits_split x)) as Htok.
  split; [apply parse_emojis_str |]. split; [done |]. split; [|split; [done |]].
  - intros Hws. symmetry. apply splits_unique. by apply splits_done.
  - eapply Forall_impl; [exact Htok |]. intros t [_ Ht]. by apply strip_token.
Qed.

(** C5 as stated fails on an integer cell: parse_emojis raises instead of
    returning the empty list, and the batch aborts. *)
Lemma parse_emojis_int_aborts :
  parse_emojis (PInt 5) = raise AttributeError
  ∧ parse_emojis (PInt 5) ≠ ok []
  ∧ create_nodes (__init__ reviews_int) = raise AttributeError
  ∧ build_graph (__init__ reviews_int) = raise AttributeError.
Proof.
  split; [reflexivity |]. split; [discriminate |].
  split; vm_compute; reflexivity.
Qed.



(** ** Further properties of the pipeline *)

Section corpus_facts.
Implicit Types (self : GraphBuilder) (lists : list (list pystr))
  (col : list pyobj) (a b t : pystr) (l : list pystr).

Lemma apply_app {A B} (f : A → result B) (l1 l2 : list A) ys1 ys2 :
  apply f l1 = ok ys1 → apply f l2 = ok ys2 →
  apply f (l1 ++ l2) = ok (ys1 ++ ys2).
Proof.
  revert ys1. induction l1 as [|z l1 IH]; intros ys1; simpl.
  - by intros [= <-].
  - destruct (f z) as [e|w]; [done |]. simpl.
    destruct (apply f l1) as [e|ws]; [done |]. simpl.
    intros [= <-] H2. by rewrite (IH ws eq_refl H2).
Qed.

Lemma apply_app_inv {A B} (f : A → result B) (l1 l2 : list A) ys :
  apply f (l1 ++ l2) = ok ys →
  ∃ ys1 ys2, apply f l1 = ok ys1 ∧ apply f l2 = ok ys2 ∧ ys = ys1 ++ ys2.
Proof.
  revert ys. induction l1 as [|z l1 IH]; intros ys; simpl.
  - intros H. by exists [], ys.
  - destruct (f z) as [e|w]; [done |]. simpl.
    destruct (apply f (l1 ++ l2)) as [e|ws] eqn:E; [done |]. simpl.
    intros [= <-]. destruct (IH ws eq_refl) as (ys1 & ys2 & -> & -> & ->).
    by exists (w :: ys1), ys2.
Qed.

Lemma apply_first_raise {A B} (f : A → result B) (l1 l2 : list A) z ys1 e :
  apply f l1 = ok ys1 → f z = raise e → apply f (l1 ++ z :: l2) = raise e.
Proof.
  revert ys1. induction l1 as [|z0 l1 IH]; intros ys1; simpl.
  - intros _ ->. done.
  - destruct (f z0) as [e0|w]; [done |]. simpl.
    destruct (apply f l1) as [e0|ws]; [done |]. simpl.
    intros _ Hz. by rewrite (IH ws eq_refl Hz).
Qed.

Lemma apply_Permutation {A B} (f : A → result B) (l l' : list A) ys :
  l ≡ₚ l' → apply f l = ok ys → ∃ ys', apply f l' = ok ys' ∧ ys ≡ₚ ys'.
Proof.
  intros Hp. revert ys.
  induction Hp as [|z l l' _ IH|z1 z2 l|l l' l'' _ IH1 _ IH2]; intros ys; simpl.
  - intros [= <-]. by exists [].
  - destruct (f z) as [e|w]; [done |]. simpl.
    destruct (apply f l) as [e|ws]; [done |]. simpl. intros [= <-].
    destruct (IH ws eq_refl) as (ws' & -> & Hws). simpl.
    exists (w :: ws'). split; [done | by constructor].
  - destruct (f z2) as [e|w2]; [done |]. simpl.
    destruct (f z1) as [e|w1]; [done |]. simpl.
    destruct (apply f l) as [e|ws]; [done |]. simpl. intros [= <-].
    exists (w1 :: w2 :: ws). split; [done | by constructor].
  - intros H. destruct (IH1 _ H) as (ys' & H' & Hp1).
    destruct (IH2 _ H') as (ys'' & H'' & Hp2).
    exists ys''. split; [done | by etransitivity].
Qed.

Lemma parsed_reviews_col self col :
  reviews self !! "emojis" = Some col →
  parsed_reviews (reviews self) = apply parse_emojis col.
Proof. intros Hc. unfold parsed_reviews, getitem. by rewrite Hc. Qed.

(** Two counters with positive entries and the same reads are equal. *)
Lemma Counter_ext `{Countable K} (c1 c2 : Counter K) :
  (∀ k n, c1 !! k = Some n → 0 < n) →
  (∀ k n, c2 !! k = Some n → 0 < n) →
  (∀ k, Counter_get c1 k = Counter_get c2 k) →
  c1 = c2.
Proof.
  intros H1 H2 Hg. apply map_eq. intros k. specialize (Hg k).
  unfold Counter_get in Hg.
  destruct (c1 !! k) as [n1|] eqn:E1, (c2 !! k) as [n2|] eqn:E2;
    simpl in Hg; subst; try done.
  - apply H1 in E1. lia.
  - apply H2 in E2. lia.
Qed.

Lemma pair_counts_pos lists (k : pystr * pystr) n :
  pair_counts lists !! k = Some n → 0 < n.
Proof.
  apply pair_counts_positive. intros k' n'. by rewrite lookup_empty.
Qed.

Lemma frequencies_pos lists t n : frequencies lists !! t = Some n → 0 < n.
Proof.
  rewrite frequencies_lookup. case_decide; [by intros [= <-] | done].
Qed.

Lemma pair_counts_Permutation lists lists' :
  lists ≡ₚ lists' → pair_counts lists = pair_counts lists'.
Proof.
  intros Hp. apply Counter_ext; [apply pair_counts_pos.. |].
  intros [a b]. unfold pair_counts.
  rewrite !Counter_get_pair_counts. by rewrite Hp.
Qed.

Lemma total_occurrences_Permutation t lists lists' :
  lists ≡ₚ lists' → total_occurrences t lists = total_occurrences t lists'.
Proof. intros Hp. unfold total_occurrences. by rewrite Hp. Qed.

Lemma frequencies_get lists t :
  Counter_get (frequencies lists) t = total_occurrences t lists.
Proof. unfold frequencies. by rewrite Counter_get_of, occurrences_concat. Qed.

Lemma frequencies_Permutation lists lists' :
  lists ≡ₚ lists' → frequencies lists = frequencies lists'.
Proof.
  intros Hp. apply Counter_ext; [apply frequencies_pos.. |].
  intros t. rewrite !frequencies_get. by apply total_occurrences_Permutation.
Qed.

Lemma pair_counts_app_get lists1 lists2 (k : pystr * pystr) :
  Counter_get (pair_counts (lists1 ++ lists2)) k
  = Counter_get (pair_counts lists1) k + Counter_get (pair_counts lists2) k.
Proof.
  destruct k as [a b]. unfold pair_counts.
  rewrite foldl_app, !Counter_get_pair_counts, Counter_get_empty. lia.
Qed.

Lemma total_occurrences_app t lists1 lists2 :
  total_occurrences t (lists1 ++ lists2)
  = total_occurrences t lists1 + total_occurrences t lists2.
Proof. unfold total_occurrences. by rewrite fmap_app, sum_list_with_app. Qed.

(** A review whose tokens are all the same token adds no pair. *)
Lemma count_tokens_single (c : Counter (pystr * pystr)) l :
  (∀ a b, a ∈ l → b ∈ l → a = b) → count_tokens c l = c.
Proof.
  intros Hl. unfold count_tokens. destruct (length l <? 2); [done |].
  pose proof (sorted_set_NoDup l) as Hnd.
  assert (Hin : ∀ t, t ∈ sorted_set l → t ∈ l)
    by (intros t; apply sorted_set_elem).
  destruct (sorted_set l) as [|x [|y r]]; [done | done |].
  exfalso. apply NoDup_cons in Hnd as [Hx _]. apply Hx.
  rewrite (Hl x y); [left | apply Hin; left | apply Hin; right; left].
Qed.

Lemma pair_counts_insert_single lists1 lists2 l :
  (∀ a b, a ∈ l → b ∈ l → a = b) →
  pair_counts (lists1 ++ l :: lists2) = pair_counts (lists1 ++ lists2).
Proof.
  intros Hl. unfold pair_counts. rewrite !foldl_app. simpl.
  by rewrite count_tokens_single.
Qed.
End corpus_facts.

Section success_facts.
Implicit Types (self : GraphBuilder) (col : list pyobj) (x : pyobj).

(** parse_emojis returns on the missing markers and on strings. *)
Lemma parse_emojis_ok x :
  x = PNone ∨ x = PNaN ∨ (∃ s, x = PStr s) → ∃ toks, parse_emojis x = ok toks.
Proof.
  intros [->|[->|[s ->]]]; [by exists [] | by exists [] |].
  exists (split s). apply parse_emojis_str.
Qed.

Lemma apply_ok_iff {A B} (f : A → result B) (l : list A) :
  (∃ ys, apply f l = ok ys) ↔ Forall (λ z, ∃ y, f z = ok y) l.
Proof.
  induction l as [|z l IH]; simpl.
  - split; [constructor | by exists []].
  - rewrite Forall_cons, <- IH. split.
    + intros [ys Hys]. destruct (f z) as [e|w]; [done |]. simpl in Hys.
      destruct (apply f l) as [e|ws]; [done | eauto].
    + intros [[w ->] [ws ->]]. by exists (w :: ws).
Qed.

Lemma create_nodes_parsed self self' (ec : Counter (pystr * pystr)) :
  create_nodes self = ok (self', ec) →
  ∃ lists, parsed_reviews (reviews self) = ok lists.
Proof.
  unfold parsed_reviews, create_nodes.
  destruct (getitem (reviews self) "emojis") as [e|col]; [done |].
  simpl. destruct (apply parse_emojis col) as [e|lists]; [done | eauto].
Qed.
End success_facts.

(** X1: create_nodes returns exactly when the reviews have an [emojis]
    column and parse_emojis returns on every cell of it, which is the case
    when every cell is None, NaN or a string; build_graph returns exactly
    when create_nodes does; without the column both raise KeyError. *)
Theorem create_nodes_succeeds_iff (self : GraphBuilder) :
  ((∃ r, create_nodes self = ok r)
   ↔ ∃ col, reviews self !! "emojis" = Some col
            ∧ Forall (λ x, ∃ toks, parse_emojis x = ok toks) col)
  ∧ ((∃ r, build_graph self = ok r) ↔ ∃ r, create_nodes self = ok r)
  ∧ (∀ col, reviews self !! "emojis" = Some col →
       Forall (λ x, x = PNone ∨ x = PNaN ∨ ∃ s, x = PStr s) col →
       ∃ r, create_nodes self = ok r)
  ∧ (reviews self !! "emojis" = None →
     create_nodes self = raise KeyError ∧ build_graph self = raise KeyError).
Proof.
  assert (Hsuff : ∀ col, reviews self !! "emojis" = Some col →
            Forall (λ x, ∃ toks, parse_emojis x = ok toks) col →
            ∃ r, create_nodes self = ok r).
  { intros col Hcol [lists Hl]%apply_ok_iff. eexists.
    apply (create_nodes_ok self lists). by rewrite (parsed_reviews_col _ col). }
  split; [|split; [|split]].
  - split.
    + intros [[self' ec] Hr].
      destruct (reviews self !! "emojis") as [col|] eqn:Hcol.
      * exists col. split; [done |]. apply apply_ok_iff.
        unfold create_nodes, getitem in Hr. rewrite Hcol in Hr. simpl in Hr.
        destruct (apply parse_emojis col) as [e|ys]; [done | eauto].
      * unfold create_nodes, getitem in Hr. by rewrite Hcol in Hr.
    + intros (col & Hcol & Hall). by apply (Hsuff col).
  - split.
    + intros [r Hr]. unfold build_graph in Hr.
      destruct (create_nodes self) as [e|r']; [done | eauto].
    + intros [[self' ec] Hr].
      destruct (create_nodes_parsed self self' ec Hr) as [lists Hl].
      eexists. by apply build_graph_ok.
  - intros col Hcol Hall. apply (Hsuff col Hcol).
    eapply Forall_impl; [exact Hall |]. intros x. apply parse_emojis_ok.
  - intros Hcol. unfold build_graph, create_nodes, getitem. by rewrite Hcol.
Qed.

(** X2: when the cells before the first one parse_emojis rejects are all
    accepted, create_nodes and build_graph raise the exception of that
    cell, whatever follows it. *)
Theorem create_nodes_first_error (self : GraphBuilder)
    (col1 col2 : list pyobj) (x : pyobj) (lists1 : list (list pystr))
    (e : exn) :
  reviews self !! "emojis" = Some (col1 ++ x :: col2) →
  apply parse_emojis col1 = ok lists1 →
  parse_emojis x = raise e →
  create_nodes self = raise e ∧ build_graph self = raise e.
Proof.
  intros Hcol H1 Hx.
  assert (Hc : create_nodes self = raise e).
  { unfold create_nodes, getitem. rewrite Hcol. simpl.
    by rewrite (apply_first_raise _ _ _ _ _ _ H1 Hx). }
  split; [done |]. unfold build_graph. by rewrite Hc.
Qed.

Lemma create_nodes_first_error_witness :
  create_nodes (__init__ reviews_int) = raise AttributeError
  ∧ build_graph (__init__ reviews_int) = raise AttributeError.
Proof.
  apply (create_nodes_first_error (__init__ reviews_int)
           [PStr (ord_str ":smile: :heart:")] [] (PInt 5) [[smile; heart]]).
  - reflexivity.
  - vm_compute. reflexivity.
  - reflexivity.
Defined.

(** X3: a review whose tokens are all one and the same token (or that has
    no token) contributes nothing to the pair counter: create_nodes
    returns the same counter with and without it. *)
Theorem create_nodes_ignores_lone_token_review (self1 self2 : GraphBuilder)
    (col1 col2 : list pyobj) (x : pyobj) (l : list pystr)
    (lists1 lists2 : list (list pystr)) :
  reviews self1 !! "emojis" = Some (col1 ++ x :: col2) →
  reviews self2 !! "emojis" = Some (col1 ++ col2) →
  apply parse_emojis col1 = ok lists1 →
  apply parse_emojis col2 = ok lists2 →
  parse_emojis x = ok l →
  (∀ a b, a ∈ l → b ∈ l → a = b) →
  ∃ s1 s2 ec,
    create_nodes self1 = ok (s1, ec) ∧ create_nodes self2 = ok (s2, ec).
Proof.
  intros Hc1 Hc2 H1 H2 Hx Hl.
  assert (Hp1 : parsed_reviews (reviews self1) = ok (lists1 ++ l :: lists2)).
  { rewrite (parsed_reviews_col _ _ Hc1). apply apply_app; [done |].
    simpl. by rewrite Hx, H2. }
  assert (Hp2 : parsed_reviews (reviews self2) = ok (lists1 ++ lists2)).
  { rewrite (parsed_reviews_col _ _ Hc2). by apply apply_app. }
  eexists _, _, _. split; [by apply create_nodes_ok |].
  rewrite (create_nodes_ok _ _ Hp2). do 2 f_equal.
  symmetry. by apply (pair_counts_insert_single lists1 lists2 l).
Qed.

Lemma create_nodes_ignores_lone_token_review_witness :
  ∃ s1 s2 ec,
    create_nodes (__init__ reviews_pairs) = ok (s1, ec)
    ∧ create_nodes
        (__init__ {[ "emojis" := [ PStr (ord_str ":smile: :heart:");
                                   PStr (ord_str ":smile: :heart: :smile:");
                                   PNaN ] ]})
      = ok (s2, ec).
Proof.
  apply (create_nodes_ignores_lone_token_review _ _
           [ PStr (ord_str ":smile: :heart:");
             PStr (ord_str ":smile: :heart: :smile:") ]
           [ PNaN ] (PStr (ord_str ":wow:")) [wow]
           [ [smile; heart]; [smile; heart; smile] ] [ [] ]).
  - reflexivity.
  - reflexivity.
  - vm_compute. reflexivity.
  - reflexivity.
  - vm_compute. reflexivity.
  - intros a b Ha Hb. apply list_elem_of_singleton in Ha, Hb. by subst.
Defined.

(** X4: the order of the reviews is irrelevant: two corpora whose emojis
    columns are permutations of each other give the same pair counter,
    the same frequency counter and the same graph. *)
Theorem build_graph_row_order_irrelevant (df df' : DataFrame)
    (col col' : list pyobj) (lists : list (list pystr)) :
  df !! "emojis" = Some col →
  df' !! "emojis" = Some col' →
  col ≡ₚ col' →
  apply parse_emojis col = ok lists →
  ∃ s1 s1' ec freq s2 s2' G,
    create_nodes (__init__ df) = ok (s1, ec)
    ∧ create_nodes (__init__ df') = ok (s1', ec)
    ∧ emoji_freq (reviews s1) = ok freq
    ∧ emoji_freq (reviews s1') = ok freq
    ∧ build_graph (__init__ df) = ok (s2, G)
    ∧ build_graph (__init__ df') = ok (s2', G).
Proof.
  intros Hc Hc' Hperm Hl.
  destruct (apply_Permutation _ _ _ _ Hperm Hl) as (lists' & Hl' & Hpl).
  assert (Hp : parsed_reviews (reviews (__init__ df)) = ok lists)
    by (by rewrite (parsed_reviews_col _ col)).
  assert (Hp' : parsed_reviews (reviews (__init__ df')) = ok lists')
    by (by rewrite (parsed_reviews_col _ col')).
  eexists _, _, _, _, _, _, _.
  split; [by apply create_nodes_ok |].
  split.
  { rewrite (create_nodes_ok _ _ Hp'). do 2 f_equal.
    symmetry. by apply pair_counts_Permutation. }
  split; [apply emoji_freq_ok |].
  split.
  { rewrite emoji_freq_ok. f_equal. symmetry. by apply frequencies_Permutation. }
  split; [by apply build_graph_ok |].
  rewrite (build_graph_ok _ _ Hp'). unfold graph_from. simpl.
  rewrite <- (pair_counts_Permutation _ _ Hpl).
  by rewrite <- (frequencies_Permutation _ _ Hpl).
Qed.

Lemma build_graph_row_order_irrelevant_witness :
  ∃ s1 s1' ec freq s2 s2' G,
    create_nodes (__init__ reviews_pairs) = ok (s1, ec)
    ∧ create_nodes (__init__ {[ "emojis" := reverse column_pairs ]})
      = ok (s1', ec)
    ∧ emoji_freq (reviews s1) = ok freq
    ∧ emoji_freq (reviews s1') = ok freq
    ∧ build_graph (__init__ reviews_pairs) = ok (s2, G)
    ∧ build_graph (__init__ {[ "emojis" := reverse column_pairs ]})
      = ok (s2', G).
Proof.
  apply (build_graph_row_order_irrelevant reviews_pairs
           {[ "emojis" := reverse column_pairs ]}
           column_pairs (reverse column_pairs) lists_pairs).
  - reflexivity.
  - reflexivity.
  - symmetry. apply reverse_Permutation.
  - vm_compute. reflexivity.
Defined.

(** X5: the counters of a corpus split in two parts add up: for every key
    the pair count (and for every token the frequency) of the whole is the
    sum of those of the parts. *)
Theorem counters_add_over_concatenation (df1 df2 df : DataFrame)
    (col1 col2 : list pyobj) (lists1 lists2 : list (list pystr)) :
  df1 !! "emojis" = Some col1 →
  df2 !! "emojis" = Some col2 →
  df !! "emojis" = Some (col1 ++ col2) →
  apply parse_emojis col1 = ok lists1 →
  apply parse_emojis col2 = ok lists2 →
  ∃ s1 ec1 freq1 s2 ec2 freq2 s ec freq,
    create_nodes (__init__ df1) = ok (s1, ec1)
    ∧ emoji_freq (reviews s1) = ok freq1
    ∧ create_nodes (__init__ df2) = ok (s2, ec2)
    ∧ emoji_freq (reviews s2) = ok freq2
    ∧ create_nodes (__init__ df) = ok (s, ec)
    ∧ emoji_freq (reviews s) = ok freq
    ∧ (∀ k, Counter_get ec k = Counter_get ec1 k + Counter_get ec2 k)
    ∧ (∀ t, Counter_get freq t = Counter_get freq1 t + Counter_get freq2 t).
Proof.
  intros Hc1 Hc2 Hc H1 H2.
  assert (Hp1 : parsed_reviews (reviews (__init__ df1)) = ok lists1)
    by (by rewrite (parsed_reviews_col _ col1)).
  assert (Hp2 : parsed_reviews (reviews (__init__ df2)) = ok lists2)
    by (by rewrite (parsed_reviews_col _ col2)).
  assert (Hp : parsed_reviews (reviews (__init__ df)) = ok (lists1 ++ lists2)).
  { rewrite (parsed_reviews_col (__init__ df) _ Hc). by apply apply_app. }
  eexists _, _, _, _, _, _, _, _, _.
  split; [by apply create_nodes_ok |]. split; [apply emoji_freq_ok |].
  split; [by apply create_nodes_ok |]. split; [apply emoji_freq_ok |].
  split; [by apply create_nodes_ok |]. split; [apply emoji_freq_ok |].
  split.
  - apply pair_counts_app_get.
  - intros t. fold (frequencies lists1) (frequencies lists2)
      (frequencies (lists1 ++ lists2)).
    rewrite !frequencies_get. apply total_occurrences_app.
Qed.

Lemma counters_add_over_concatenation_witness :
  ∃ s1 ec1 freq1 s2 ec2 freq2 s ec freq,
    create_nodes (__init__ reviews_pairs) = ok (s1, ec1)
    ∧ emoji_freq (reviews s1) = ok freq1
    ∧ create_nodes (__init__ reviews_triple) = ok (s2, ec2)
    ∧ emoji_freq (reviews s2) = ok freq2
    ∧ create_nodes (__init__ {[ "emojis" := column_pairs ++ column_triple ]})
      = ok (s, ec)
    ∧ emoji_freq (reviews s) = ok freq
    ∧ (∀ k, Counter_get ec k = Counter_get ec1 k + Counter_get ec2 k)
    ∧ (∀ t, Counter_get freq t = Counter_get freq1 t + Counter_get freq2 t).
Proof.
  apply (counters_add_over_concatenation reviews_pairs reviews_triple
           {[ "emojis" := column_pairs ++ column_triple ]}
           column_pairs column_triple lists_pairs lists_triple).
  - reflexivity.
  - reflexivity.
  - reflexivity.
  - vm_compute. reflexivity.
  - vm_compute. reflexivity.
Defined.

Section edge_facts.
Implicit Types (lists : list (list pystr)) (a b n t u v : pystr)
  (l : list pystr) (G : Graph).

Lemma cooccurring_reviews_sym a b lists :
  cooccurring_reviews a b lists = cooccurring_reviews b a lists.
Proof.
  rewrite !cooccurring_reviews_filter. f_equal.
  apply list_filter_iff. tauto.
Qed.

Lemma cooccurring_reviews_pos_iff a b lists :
  0 < cooccurring_reviews a b lists ↔ ∃ l, l ∈ lists ∧ a ∈ l ∧ b ∈ l.
Proof.
  split; [apply cooccurring_reviews_pos |].
  intros (l & Hl & Ha & Hb). rewrite cooccurring_reviews_filter.
  assert (Hin : l ∈ filter (λ l, a ∈ l ∧ b ∈ l) lists)
    by (by apply list_elem_of_filter).
  destruct (filter (λ l, a ∈ l ∧ b ∈ l) lists);
    [by apply elem_of_nil in Hin | simpl; lia].
Qed.

Lemma pair_counts_lookup_eq lists a b :
  pair_counts lists !! (a, b)
  = if decide (str_lt a b ∧ 0 < cooccurring_reviews a b lists)
    then Some (cooccurring_reviews a b lists) else None.
Proof.
  pose proof (pair_counts_get lists a b) as Hg.
  fold (pair_counts lists) in Hg. unfold Counter_get in Hg.
  destruct (pair_counts lists !! (a, b)) as [w|] eqn:E; simpl in Hg.
  - apply pair_counts_key in E as (Hlt & -> & Hpos).
    by rewrite decide_True.
  - rewrite decide_False; [done |]. intros [Hlt Hpos].
    rewrite decide_True in Hg by done. lia.
Qed.

Lemma pair_weight_eq lists a b :
  pair_weight (pair_counts lists) a b
  = if decide (a ≠ b ∧ 0 < cooccurring_reviews a b lists)
    then Some (cooccurring_reviews a b lists) else None.
Proof.
  unfold pair_weight. rewrite !pair_counts_lookup_eq.
  rewrite (cooccurring_reviews_sym b a).
  destruct (str_lt_trichotomy a b) as [Hlt|[->|Hlt]].
  - pose proof (str_lt_ne _ _ Hlt). pose proof (str_lt_asym _ _ Hlt).
    repeat case_decide; first [done | exfalso; intuition congruence].
  - assert (¬ str_lt b b) by apply irreflexivity, _.
    repeat case_decide; first [done | exfalso; intuition congruence].
  - pose proof (str_lt_ne _ _ Hlt). pose proof (str_lt_asym _ _ Hlt).
    repeat case_decide; first [done | exfalso; intuition congruence].
Qed.

Lemma cooccurring_reviews_le_occurrences a b lists :
  cooccurring_reviews a b lists ≤ total_occurrences a lists.
Proof.
  rewrite cooccurring_reviews_filter. unfold total_occurrences.
  induction lists as [|l lists IH]; [done |].
  rewrite filter_cons, fmap_cons. simpl.
  destruct (decide (a ∈ l ∧ b ∈ l)) as [[Ha _]|_]; simpl.
  - pose proof (occurrences_pos a l Ha). lia.
  - lia.
Qed.

Lemma weight_singleton_inj (w w' : nat) :
  ({["weight" := w]} : attrs) = {["weight" := w']} → w = w'.
Proof.
  intros Heq. apply (f_equal (λ m : attrs, m !! "weight")) in Heq.
  rewrite !lookup_singleton_eq in Heq. congruence.
Qed.

Lemma parse_emojis_tokens (x : pyobj) l :
  parse_emojis x = ok l → Forall is_token l.
Proof.
  destruct x as [| |z|s|l0]; try done.
  - intros [= <-]. constructor.
  - intros [= <-]. constructor.
  - rewrite parse_emojis_str. intros [= <-].
    eapply splits_tokens, splits_split.
  - unfold parse_emojis. simpl. by destruct (decide (length l0 = 1)).
Qed.

Lemma apply_parse_tokens (col : list pyobj) lists :
  apply parse_emojis col = ok lists → Forall (Forall is_token) lists.
Proof.
  revert lists. induction col as [|x col IH]; intros lists; simpl.
  - intros [= <-]. constructor.
  - destruct (parse_emojis x) as [e|l] eqn:Hx; [done |]. simpl.
    destruct (apply parse_emojis col) as [e|ls]; [done |]. simpl.
    intros [= <-]. constructor; [by eapply parse_emojis_tokens | by apply IH].
Qed.

Lemma parsed_reviews_tokens (df : DataFrame) lists l t :
  parsed_reviews df = ok lists → l ∈ lists → t ∈ l → is_token t.
Proof.
  unfold parsed_reviews. destruct (getitem df "emojis") as [e|col]; [done |].
  simpl. intros Hl%apply_parse_tokens Hin Ht.
  rewrite Forall_forall in Hl. specialize (Hl l Hin).
  rewrite Forall_forall in Hl. by apply Hl.
Qed.
End edge_facts.

(** X6: in the graph of a fresh builder two tokens are joined by an edge
    exactly when they are distinct and share a review; the edge carries
    the number of reviews holding both as its weight and reads the same in
    both directions. *)
Theorem build_graph_edges (df : DataFrame) (lists : list (list pystr)) :
  parsed_reviews df = ok lists →
  ∃ s G,
    build_graph (__init__ df) = ok (s, G)
    ∧ (∀ a b, has_edge G a b ↔ a ≠ b ∧ ∃ l, l ∈ lists ∧ a ∈ l ∧ b ∈ l)
    ∧ (∀ a b, has_edge G a b →
         edge_data G a b
         = Some {["weight" := cooccurring_reviews a b lists]})
    ∧ (∀ a b, edge_data G a b = edge_data G b a).
Proof.
  intros Hp. eexists _, _.
  split; [by apply (build_graph_ok (__init__ df)) |].
  simpl. split; [|split].
  - intros a b. unfold has_edge.
    rewrite fresh_graph_edge_data, pair_weight_eq, fmap_is_Some.
    rewrite <- cooccurring_reviews_pos_iff.
    case_decide; split; first [done | by eexists | by intros [? ?]].
  - intros a b. unfold has_edge.
    rewrite fresh_graph_edge_data, pair_weight_eq.
    case_decide; [done | by intros [? ?]].
  - intros a b. rewrite !fresh_graph_edge_data, !pair_weight_eq.
    rewrite (cooccurring_reviews_sym b a).
    repeat case_decide; first [done | exfalso; intuition congruence].
Qed.

Lemma build_graph_edges_witness :
  ∃ s G,
    build_graph (__init__ reviews_triple) = ok (s, G)
    ∧ (∀ a b, has_edge G a b
              ↔ a ≠ b ∧ ∃ l, l ∈ lists_triple ∧ a ∈ l ∧ b ∈ l)
    ∧ (∀ a b, has_edge G a b →
         edge_data G a b
         = Some {["weight" := cooccurring_reviews a b lists_triple]})
    ∧ (∀ a b, edge_data G a b = edge_data G b a).
Proof.
  apply (build_graph_edges reviews_triple lists_triple).
  vm_compute. reflexivity.
Defined.

(** X7: in the graph of a fresh builder the weight of an edge never
    exceeds the frequency attribute of either of its end nodes. *)
Theorem edge_weight_le_frequency (df : DataFrame)
    (lists : list (list pystr)) :
  parsed_reviews df = ok lists →
  ∃ s G,
    build_graph (__init__ df) = ok (s, G)
    ∧ ∀ a b w,
        edge_data G a b = Some {["weight" := w]} →
        ∃ fa fb,
          _node G !! a = Some {["frequency" := fa]}
          ∧ _node G !! b = Some {["frequency" := fb]}
          ∧ w ≤ fa ∧ w ≤ fb.
Proof.
  intros Hp. eexists _, _.
  split; [by apply (build_graph_ok (__init__ df)) |].
  simpl. intros a b w. rewrite fresh_graph_edge_data.
  destruct (pair_weight (pair_counts lists) a b) as [w'|] eqn:Hw; [|done].
  simpl. intros Heq. apply (inj Some), weight_singleton_inj in Heq. subst w'.
  assert (Hb : pair_weight (pair_counts lists) b a = Some w).
  { rewrite pair_weight_eq in Hw |- *.
    rewrite (cooccurring_reviews_sym b a).
    repeat case_decide; first [done | exfalso; intuition congruence]. }
  exists (total_occurrences a lists), (total_occurrences b lists).
  rewrite !fresh_graph_node.
  rewrite !decide_True by (apply elem_of_paired_tokens; eauto).
  split; [done |]. split; [done |].
  rewrite pair_weight_eq in Hw, Hb.
  case_decide; [|done]. case_decide; [|done].
  injection Hw as <-. split; [apply cooccurring_reviews_le_occurrences |].
  rewrite cooccurring_reviews_sym. apply cooccurring_reviews_le_occurrences.
Qed.

Lemma edge_weight_le_frequency_witness :
  ∃ s G,
    build_graph (__init__ reviews_pairs) = ok (s, G)
    ∧ ∀ a b w,
        edge_data G a b = Some {["weight" := w]} →
        ∃ fa fb,
          _node G !! a = Some {["frequency" := fa]}
          ∧ _node G !! b = Some {["frequency" := fb]}
          ∧ w ≤ fa ∧ w ≤ fb.
Proof.
  apply (edge_weight_le_frequency reviews_pairs lists_pairs).
  vm_compute. reflexivity.
Defined.

(** X8: every key of the pair counter, every key of the frequency counter
    and every node of the graph is a clean token: a nonempty string
    without whitespace. *)
Theorem graph_tokens_are_clean (df : DataFrame) (lists : list (list pystr)) :
  parsed_reviews df = ok lists →
  ∃ s1 ec freq s2 G,
    create_nodes (__init__ df) = ok (s1, ec)
    ∧ emoji_freq (reviews s1) = ok freq
    ∧ build_graph (__init__ df) = ok (s2, G)
    ∧ (∀ a b w, ec !! (a, b) = Some w → is_token a ∧ is_token b)
    ∧ (∀ t, t ∈ dom freq → is_token t)
    ∧ (∀ n, n ∈ nodes G → is_token n).
Proof.
  intros Hp.
  exists (with_emoji_list (__init__ df) lists), (pair_counts lists),
    (frequencies lists),
    {| reviews := reviews (with_emoji_list (__init__ df) lists);
       graph := graph_from empty_graph lists |},
    (graph_from empty_graph lists).
  split; [by apply create_nodes_ok |].
  split; [apply emoji_freq_ok |].
  split; [by apply (build_graph_ok (__init__ df)) |].
  split; [|split].
  - intros a b w (_ & -> & Hpos)%pair_counts_key.
    apply cooccurring_reviews_pos in Hpos as (l & Hl & Ha & Hb).
    split; by eapply parsed_reviews_tokens.
  - intros t (l & Hl & Ht)%elem_of_dom_frequencies.
    by eapply parsed_reviews_tokens.
  - intros n. rewrite fresh_graph_nodes.
    intros (m & w & Hw)%elem_of_paired_tokens.
    apply pair_weight_cooccur in Hw as (_ & l & Hl & Hn & _).
    by eapply parsed_reviews_tokens.
Qed.

Lemma graph_tokens_are_clean_witness :
  ∃ s1 ec freq s2 G,
    create_nodes (__init__ reviews_triple) = ok (s1, ec)
    ∧ emoji_freq (reviews s1) = ok freq
    ∧ build_graph (__init__ reviews_triple) = ok (s2, G)
    ∧ (∀ a b w, ec !! (a, b) = Some w → is_token a ∧ is_token b)
    ∧ (∀ t, t ∈ dom freq → is_token t)
    ∧ (∀ n, n ∈ nodes G → is_token n).
Proof.
  apply (graph_tokens_are_clean reviews_triple lists_triple).
  vm_compute. reflexivity.
Defined.

(** X9: build_graph adds to the graph the builder already holds and never
    takes anything away.  On a builder whose graph is not empty, every old
    node and edge is still there afterwards; an old edge between two
    tokens that share no review of the present corpus keeps its data, and
    an old node whose token does not occur in the present corpus keeps its
    attributes. *)
Theorem build_graph_accumulates (self : GraphBuilder)
    (lists : list (list pystr)) :
  graph_wf (graph self) →
  parsed_reviews (reviews self) = ok lists →
  ∃ s G,
    build_graph self = ok (s, G)
    ∧ graph s = G
    ∧ graph_wf G
    ∧ (∀ n, n ∈ nodes G
            ↔ n ∈ nodes (graph self)
              ∨ ∃ m l, m ≠ n ∧ l ∈ lists ∧ n ∈ l ∧ m ∈ l)
    ∧ (∀ u v, has_edge (graph self) u v → has_edge G u v)
    ∧ (∀ u v, (∀ l, l ∈ lists → ¬ (u ∈ l ∧ v ∈ l)) →
         edge_data G u v = edge_data (graph self) u v)
    ∧ (∀ n, (∀ l, l ∈ lists → n ∉ l) →
         _node G !! n = _node (graph self) !! n).
Proof.
  intros Hwf Hp. eexists _, _. split; [by apply build_graph_ok |]. simpl.
  assert (Hpaired : ∀ n, n ∈ paired_tokens (pair_counts lists)
                         ↔ ∃ m l, m ≠ n ∧ l ∈ lists ∧ n ∈ l ∧ m ∈ l).
  { intros n. rewrite elem_of_paired_tokens. split.
    - intros (m & w & (Hne & l & Hl & Hn & Hm)%pair_weight_cooccur).
      exists m, l. eauto.
    - intros (m & l & Hne & Hl & Hn & Hm).
      exists m, (cooccurring_reviews n m lists).
      rewrite pair_weight_eq, decide_True; [done |].
      split; [done |]. apply cooccurring_reviews_pos_iff. eauto. }
  split; [done |]. split; [by apply graph_from_wf |].
  split; [|split; [|split]].
  - intros n. rewrite <- Hpaired. unfold nodes.
    rewrite !elem_of_dom, graph_from_node by done. rewrite fmap_is_Some.
    destruct (decide (n ∈ paired_tokens (pair_counts lists))); split;
      first [by auto | by eexists | by intros [?|?] | tauto].
  - intros u v. unfold has_edge. rewrite graph_from_edge_data by done.
    by destruct (pair_weight (pair_counts lists) u v).
  - intros u v Hno. rewrite graph_from_edge_data by done.
    destruct (pair_weight (pair_counts lists) u v) as [w|] eqn:Hw; [|done].
    apply pair_weight_cooccur in Hw as (_ & l & Hl & Hu & Hv).
    destruct (Hno l Hl). done.
  - intros n Hno. rewrite graph_from_node by done.
    rewrite decide_False.
    + unfold with_attribute. rewrite frequencies_lookup.
      rewrite decide_False; [by destruct (_node (graph self) !! n) |].
      intros Hpos. rewrite <- occurrences_concat in Hpos.
      destruct (decide (n ∈ concat lists)) as [Hin|Hn].
      * apply elem_of_concat in Hin as (l & Hl & Hn). by destruct (Hno l Hl).
      * rewrite occurrences_0 in Hpos by done. lia.
    + intros (m & l & _ & Hl & Hn & _)%Hpaired. by destruct (Hno l Hl).
Qed.

Lemma build_graph_accumulates_witness :
  ∃ s G,
    build_graph builder_reused = ok (s, G)
    ∧ graph s = G
    ∧ graph_wf G
    ∧ (∀ n, n ∈ nodes G
            ↔ n ∈ nodes (graph builder_reused)
              ∨ ∃ m l, m ≠ n ∧ l ∈ lists_triple ∧ n ∈ l ∧ m ∈ l)
    ∧ (∀ u v, has_edge (graph builder_reused) u v → has_edge G u v)
    ∧ (∀ u v, (∀ l, l ∈ lists_triple → ¬ (u ∈ l ∧ v ∈ l)) →
         edge_data G u v = edge_data (graph builder_reused) u v)
    ∧ (∀ n, (∀ l, l ∈ lists_triple → n ∉ l) →
         _node G !! n = _node (graph builder_reused) !! n).
Proof.
  apply (build_graph_accumulates builder_reused lists_triple).
  - apply graph_from_wf, graph_wf_empty.
  - vm_compute. reflexivity.
Defined.

Section join_facts.
Implicit Types (sep s t : pystr) (toks : list pystr).

Lemma split_join sep toks :
  sep ≠ [] → Forall (λ c, isspace c) sep → Forall is_token toks →
  split (join sep toks) = toks.
Proof.
  intros Hne Hsep. induction 1 as [|t toks Ht Htoks IH]; [done |].
  destruct toks as [|t' toks].
  - simpl. rewrite <- (app_nil_r t) at 1. by rewrite split_token.
  - change (join sep (t :: t' :: toks)) with (t ++ sep ++ join sep (t' :: toks)).
    rewrite split_token; [by rewrite split_skip, IH | done |].
    destruct Hsep as [|c sep' Hc _]; [done | exact Hc].
Qed.
End join_facts.

(** X10: joining clean tokens with a space and parsing the result gives
    the tokens back, which is how the emojis string written by the crawler
    is read by parse_emojis; and parsing is insensitive to the amount of
    whitespace: a string parses like its tokens rejoined by single
    spaces. *)
Theorem parse_emojis_join (toks : list pystr) :
  Forall is_token toks →
  parse_emojis (PStr (join (ord_str " ") toks)) = ok toks
  ∧ ∀ s, parse_emojis (PStr (join (ord_str " ") (split s)))
         = parse_emojis (PStr s).
Proof.
  intros Htoks.
  assert (Hj : ∀ l, Forall is_token l → split (join (ord_str " ") l) = l).
  { intros l Hl. apply split_join; [done | | done].
    repeat constructor. }
  split.
  - by rewrite parse_emojis_str, Hj.
  - intros s. rewrite !parse_emojis_str, Hj; [done |].
    eapply splits_tokens, splits_split.
Qed.

Lemma parse_emojis_join_witness :
  parse_emojis (PStr (join (ord_str " ") [smile; heart; smile]))
  = ok [smile; heart; smile]
  ∧ ∀ s, parse_emojis (PStr (join (ord_str " ") (split s)))
         = parse_emojis (PStr s).
Proof.
  apply (parse_emojis_join [smile; heart; smile]).
  repeat constructor; first [discriminate | vm_compute; exact id].
Defined.

(** ** The crawler's page parsers *)

Example crawl_nth_review_sample :
  crawl_nth_review sample_review_page sample_link = ok (Some sample_records).
Proof. vm_compute. reflexivity. Qed.

Example crawl_nth_page_sample :
  crawl_nth_page sample_listing_page = ok (Some sample_link).
Proof. vm_compute. reflexivity. Qed.

Section strip_facts.
Implicit Types (s ws : pystr) (c : N).

Lemma lstrip_decomp s :
  ∃ ws, s = ws ++ lstrip s ∧ Forall (λ c, isspace c) ws.
Proof.
  induction s as [|c s (ws & Hs & Hws)]; [by exists [] |]. simpl.
  destruct (isspace c) eqn:Hc.
  - exists (c :: ws). split; [by rewrite <- app_comm_cons, <- Hs |].
    constructor; [by rewrite Hc | done].
  - by exists [].
Qed.

Lemma lstrip_head s :
  match lstrip s with [] => True | c :: _ => ¬ isspace c end.
Proof.
  induction s as [|c s IH]; [done |]. simpl.
  destruct (isspace c) eqn:Hc; [done |]. rewrite Hc. exact id.
Qed.

Lemma rstrip_decomp s :
  ∃ ws, s = rstrip s ++ ws ∧ Forall (λ c, isspace c) ws.
Proof.
  unfold rstrip. destruct (lstrip_decomp (reverse s)) as (ws & Hs & Hws).
  exists (reverse ws). split; [|by apply Forall_reverse].
  rewrite <- reverse_app, <- Hs. by rewrite reverse_involutive.
Qed.

Lemma rstrip_last s :
  match last (rstrip s) with None => True | Some c => ¬ isspace c end.
Proof.
  unfold rstrip. rewrite last_reverse.
  pose proof (lstrip_head (reverse s)) as H.
  by destruct (lstrip (reverse s)).
Qed.

(** [strip] removes a run of whitespace at each end and leaves a string
    that neither starts nor ends with whitespace. *)
Lemma strip_spec s :
  ∃ ws1 ws2,
    s = ws1 ++ strip s ++ ws2
    ∧ Forall (λ c, isspace c) ws1 ∧ Forall (λ c, isspace c) ws2
    ∧ trimmed (strip s).
Proof.
  destruct (lstrip_decomp s) as (ws1 & Hs1 & Hws1).
  destruct (rstrip_decomp (lstrip s)) as (ws2 & Hs2 & Hws2).
  exists ws1, ws2. unfold strip.
  split; [by rewrite <- Hs2 |]. split; [done |]. split; [done |].
  split; [|apply rstrip_last].
  pose proof (lstrip_head s) as Hh. rewrite Hs2 in Hh.
  by destruct (rstrip (lstrip s)).
Qed.

Lemma lstrip_skip ws s : Forall (λ c, isspace c) ws → lstrip (ws ++ s) = lstrip s.
Proof.
  induction 1 as [|c ws Hc _ IH]; [done |]. simpl.
  destruct (isspace c); [done | by destruct Hc].
Qed.

Lemma lstrip_head_id s :
  match s with [] => True | c :: _ => ¬ isspace c end → lstrip s = s.
Proof.
  destruct s as [|c s]; [done |]. simpl. intros Hc.
  destruct (isspace c); [by destruct Hc | done].
Qed.

(** [strip] computes the trimmed form, and that form is unique. *)
Lemma trim_of_strip s t : trim_of s t ↔ t = strip s.
Proof.
  split.
  - intros (ws1 & ws2 & -> & Hws1 & Hws2 & Hhead & Hlast).
    unfold strip. rewrite lstrip_skip by done.
    destruct t as [|c t].
    + simpl. rewrite <- (app_nil_r ws2), lstrip_skip by done. done.
    + rewrite lstrip_head_id by done. unfold rstrip.
      rewrite reverse_app, lstrip_skip by (by apply Forall_reverse).
      rewrite lstrip_head_id; [by rewrite reverse_involutive |].
      rewrite <- head_reverse in Hlast.
      by destruct (reverse (c :: t)).
  - intros ->. destruct (strip_spec s) as (ws1 & ws2 & ? & ? & ? & ?).
    by exists ws1, ws2.
Qed.
End strip_facts.

Section soup_facts.
Implicit Types (soup div : elem) (link : pystr).

Lemma apply_lookup {A B} (f : A → result B) (l : list A) ys i z y :
  apply f l = ok ys → l !! i = Some z → ys !! i = Some y → f z = ok y.
Proof.
  revert ys i. induction l as [|z0 l IH]; intros ys i; simpl; [done |].
  destruct (f z0) as [e|w] eqn:E0; [done |]. simpl.
  destruct (apply f l) as [e|ws]; [done |]. simpl. intros [= <-].
  destruct i as [|i]; simpl.
  - intros [= <-] [= <-]. done.
  - by apply IH.
Qed.

Lemma emojis_of_ok div e :
  emojis_of div = ok e →
  ∃ alts,
    apply (λ emoji, attrs_getitem emoji (ord_str "alt"))
      (find_all (ord_str "img") (Some (ord_str "emo")) div) = ok alts
    ∧ e = join (ord_str " ") (emoji_marker <$> alts).
Proof.
  unfold emojis_of.
  destruct (find_all (ord_str "img") (Some (ord_str "emo")) div) as [|i imgs].
  - intros [= <-]. by exists [].
  - destruct (apply _ (i :: imgs)) as [err|alts]; [done |].
    intros [= <-]. by exists alts.
Qed.

Lemma emoji_marker_token (alt : pystr) :
  Forall (λ c, ¬ isspace c) alt → is_token (emoji_marker alt).
Proof.
  intros Halt. split; [done |]. unfold emoji_marker.
  apply Forall_app. split; [repeat constructor; exact id |].
  apply Forall_app. split; [done | repeat constructor; exact id].
Qed.

Lemma review_of_ok name category link div r :
  review_of name category link div = ok r →
  r_name r = name ∧ r_category r = category ∧ r_url r = link
  ∧ (∃ body,
       find (ord_str "div") (Some (ord_str "reviews__list-item-body-content")) div
       = Some body
       ∧ r_review r = strip (get_text body))
  ∧ (∃ stars,
       find (ord_str "div") (Some (ord_str "rating-stars")) div = Some stars
       ∧ r_rating r = length (find_all (ord_str "span") None stars))
  ∧ emojis_of div = ok (r_emojis r).
Proof.
  unfold review_of.
  destruct (find _ (Some (ord_str "reviews__list-item-body-content")) div)
    as [body|]; [|done].
  destruct (find _ (Some (ord_str "rating-stars")) div) as [stars|]; [|done].
  cbn [not_none bind ok].
  destruct (emojis_of div) as [err|e]; [done |].
  intros [= <-]. simpl. eauto 10.
Qed.

Lemma first_rated_link_none (divs : list elem) :
  first_rated_link divs = ok None
  ↔ Forall (λ d, find (ord_str "div") (Some (ord_str "tag-rating")) d = None)
      divs.
Proof.
  induction divs as [|d divs IH]; [by split; [constructor |] |].
  rewrite Forall_cons. cbn [first_rated_link].
  destruct (find (ord_str "div") (Some (ord_str "tag-rating")) d) as [t|].
  - split; [|by intros [? _]].
    destruct (find (ord_str "a") None d) as [a|]; [|done]. simpl.
    by destruct (attrs_getitem a (ord_str "href")).
  - rewrite IH. tauto.
Qed.

Lemma first_rated_link_some (divs : list elem) link :
  first_rated_link divs = ok (Some link) →
  ∃ divs1 d divs2 a href,
    divs = divs1 ++ d :: divs2
    ∧ Forall (λ d, find (ord_str "div") (Some (ord_str "tag-rating")) d = None)
        divs1
    ∧ is_Some (find (ord_str "div") (Some (ord_str "tag-rating")) d)
    ∧ find (ord_str "a") None d = Some a
    ∧ attrs_getitem a (ord_str "href") = ok href
    ∧ link = ord_str "https://hollyshop.ru" ++ href ++ ord_str "reviews/".
Proof.
  induction divs as [|d divs IH]; [done |]. cbn [first_rated_link].
  destruct (find (ord_str "div") (Some (ord_str "tag-rating")) d) as [t|] eqn:Ht.
  - destruct (find (ord_str "a") None d) as [a|] eqn:Ha; [|done].
    cbn [not_none bind ok].
    destruct (attrs_getitem a (ord_str "href")) as [err|href] eqn:Hh; [done |].
    cbn [bind]. intros [= <-].
    exists [], d, divs, a, href. rewrite Ht. eauto 10.
  - intros (divs1 & d' & divs2 & a & href & -> & Hun & Hr & Ha & Hh & ->)%IH.
    exists (d :: divs1), d', divs2, a, href.
    split; [done |]. split; [by constructor | done].
Qed.
End soup_facts.

Section crawl_facts.
Implicit Types (soup div : elem) (link : pystr) (recs : list review_record).

Lemma crawl_nth_review_some soup link recs :
  crawl_nth_review soup link = ok (Some recs) →
  ∃ name_tag cat_tag,
    find (ord_str "div") (Some (ord_str "reviews-page__product-card-name")) soup
    = Some name_tag
    ∧ find (ord_str "div")
        (Some (ord_str "reviews-page__product-card-category")) soup
      = Some cat_tag
    ∧ apply (review_of (get_text name_tag) (get_text cat_tag) link)
        (find_all (ord_str "div") (Some (ord_str "reviews__list-item")) soup)
      = ok recs.
Proof.
  unfold crawl_nth_review.
  destruct (find _ (Some (ord_str "reviews-page__product-card-name")) soup)
    as [name_tag|]; [|done].
  destruct (find _ (Some (ord_str "reviews-page__product-card-category")) soup)
    as [cat_tag|]; [|done].
  cbn [not_none bind ok].
  destruct (apply _ _) as [err|recs'] eqn:E; [done |].
  cbn [bind]. intros [= <-]. eauto.
Qed.

Lemma apply_parse_strs (ss : list pystr) :
  apply parse_emojis (PStr <$> ss) = ok (split <$> ss).
Proof.
  induction ss as [|s ss IH]; [done |].
  rewrite !fmap_cons. cbn [apply]. by rewrite parse_emojis_str, IH.
Qed.
End crawl_facts.

(** X11: crawl_nth_page returns None exactly when no listing item of the
    page holds a rating tag.  When it returns a link, the link is
    "https://hollyshop.ru", the href of the first anchor of the first
    rated item, and "reviews/"; the items before that one are unrated and
    the later ones are not looked at. *)
Theorem crawl_nth_page_spec (soup : elem) :
  (crawl_nth_page soup = ok None
   ↔ Forall (λ d, find (ord_str "div") (Some (ord_str "tag-rating")) d = None)
       (find_all (ord_str "div") (Some (ord_str "catalog__list-item")) soup))
  ∧ ∀ link,
      crawl_nth_page soup = ok (Some link) →
      ∃ divs1 d divs2 a href,
        find_all (ord_str "div") (Some (ord_str "catalog__list-item")) soup
        = divs1 ++ d :: divs2
        ∧ Forall (λ d, find (ord_str "div") (Some (ord_str "tag-rating")) d
                       = None) divs1
        ∧ is_Some (find (ord_str "div") (Some (ord_str "tag-rating")) d)
        ∧ find (ord_str "a") None d = Some a
        ∧ attrs_getitem a (ord_str "href") = ok href
        ∧ link = ord_str "https://hollyshop.ru" ++ href ++ ord_str "reviews/".
Proof.
  split; [apply first_rated_link_none |].
  intros link. apply first_rated_link_some.
Qed.

(** X12: crawl_nth_review returns None exactly when the page has no
    product-name element.  When it returns records, there is one record
    per review item, in page order; each carries the page's product name
    and category and the link it was given, the item's text with the
    whitespace at both ends removed, and the number of spans under the
    item's rating element. *)
Theorem crawl_nth_review_records (soup : elem) (link : pystr) :
  (crawl_nth_review soup link = ok None
   ↔ find (ord_str "div") (Some (ord_str "reviews-page__product-card-name"))
       soup = None)
  ∧ ∀ recs,
      crawl_nth_review soup link = ok (Some recs) →
      ∃ name_tag cat_tag,
        find (ord_str "div")
          (Some (ord_str "reviews-page__product-card-name")) soup
        = Some name_tag
        ∧ find (ord_str "div")
            (Some (ord_str "reviews-page__product-card-category")) soup
          = Some cat_tag
        ∧ length recs
          = length (find_all (ord_str "div")
                      (Some (ord_str "reviews__list-item")) soup)
        ∧ ∀ i r,
            recs !! i = Some r →
            ∃ div body stars,
              find_all (ord_str "div") (Some (ord_str "reviews__list-item"))
                soup !! i = Some div
              ∧ r_name r = get_text name_tag
              ∧ r_category r = get_text cat_tag
              ∧ r_url r = link
              ∧ find (ord_str "div")
                  (Some (ord_str "reviews__list-item-body-content")) div
                = Some body
              ∧ trim_of (get_text body) (r_review r)
              ∧ find (ord_str "div") (Some (ord_str "rating-stars")) div
                = Some stars
              ∧ r_rating r = length (find_all (ord_str "span") None stars).
Proof.
  split.
  - unfold crawl_nth_review.
    destruct (find _ (Some (ord_str "reviews-page__product-card-name")) soup)
      as [name_tag|]; [|done].
    split; [|done].
    destruct (find _ (Some (ord_str "reviews-page__product-card-category")) soup);
      [|done].
    cbn [not_none bind ok]. by destruct (apply _ _).
  - intros recs (name_tag & cat_tag & Hn & Hc & Hrecs)%crawl_nth_review_some.
    exists name_tag, cat_tag. split; [done |]. split; [done |].
    pose proof (apply_length _ _ _ Hrecs) as Hlen. split; [done |].
    intros i r Hr.
    destruct (lookup_lt_is_Some_2
                (find_all (ord_str "div") (Some (ord_str "reviews__list-item"))
                   soup) i) as [div Hdiv].
    { rewrite <- Hlen. by eapply lookup_lt_Some. }
    pose proof (apply_lookup _ _ _ _ _ _ Hrecs Hdiv Hr) as Hrev.
    apply review_of_ok in Hrev
      as (-> & -> & -> & (body & Hb & Htext) & (stars & Hs & Hrat) & _).
    exists div, body, stars. repeat (split; [done |]).
    split; [|done]. by apply trim_of_strip.
Qed.

(** X13: the emojis string of every record crawl_nth_review returns is the
    markers ":alt:" of the review's emoji images joined by single spaces;
    when no alt text contains whitespace, parse_emojis reads that string
    back as exactly these markers, in order (the empty list for a review
    without emoji images). *)
Theorem crawl_nth_review_emojis_parse (soup : elem) (link : pystr)
    (recs : list review_record) :
  crawl_nth_review soup link = ok (Some recs) →
  ∀ i r,
    recs !! i = Some r →
    ∃ div alts,
      find_all (ord_str "div") (Some (ord_str "reviews__list-item")) soup !! i
      = Some div
      ∧ apply (λ emoji, attrs_getitem emoji (ord_str "alt"))
          (find_all (ord_str "img") (Some (ord_str "emo")) div) = ok alts
      ∧ r_emojis r = join (ord_str " ") (emoji_marker <$> alts)
      ∧ (Forall (Forall (λ c, ¬ isspace c)) alts →
         parse_emojis (PStr (r_emojis r)) = ok (emoji_marker <$> alts)).
Proof.
  intros (name_tag & cat_tag & _ & _ & Hrecs)%crawl_nth_review_some i r Hr.
  pose proof (apply_length _ _ _ Hrecs) as Hlen.
  destruct (lookup_lt_is_Some_2
              (find_all (ord_str "div") (Some (ord_str "reviews__list-item"))
                 soup) i) as [div Hdiv].
  { rewrite <- Hlen. by eapply lookup_lt_Some. }
  pose proof (apply_lookup _ _ _ _ _ _ Hrecs Hdiv Hr) as Hrev.
  apply review_of_ok in Hrev as (_ & _ & _ & _ & _ & He).
  apply emojis_of_ok in He as (alts & Halts & Hj).
  exists div, alts. repeat (split; [done |]).
  intros Hclean. rewrite Hj, parse_emojis_str. f_equal.
  apply split_join; [done | repeat constructor |].
  apply Forall_fmap. eapply Forall_impl; [exact Hclean |].
  intros alt. apply emoji_marker_token.
Qed.

Lemma crawl_nth_review_emojis_parse_witness :
  ∃ div alts,
    find_all (ord_str "div") (Some (ord_str "reviews__list-item"))
      sample_review_page !! 0 = Some div
    ∧ apply (λ emoji, attrs_getitem emoji (ord_str "alt"))
        (find_all (ord_str "img") (Some (ord_str "emo")) div) = ok alts
    ∧ r_emojis sample_record = join (ord_str " ") (emoji_marker <$> alts)
    ∧ (Forall (Forall (λ c, ¬ isspace c)) alts →
       parse_emojis (PStr (r_emojis sample_record))
       = ok (emoji_marker <$> alts)).
Proof.
  apply (crawl_nth_review_emojis_parse sample_review_page sample_link
           sample_records).
  - vm_compute. reflexivity.
  - reflexivity.
Defined.

(** X14: a DataFrame built from review records goes through the graph
    builder without an exception as soon as there is one record, the token
    lists being the split emojis strings; built from no record it has no
    emojis column and build_graph raises KeyError. *)
Theorem build_graph_on_records (recs : list review_record) :
  (recs = [] →
   build_graph (__init__ (DataFrame_of_records recs)) = raise KeyError)
  ∧ (recs ≠ [] →
     parsed_reviews (DataFrame_of_records recs)
     = ok (split ∘ r_emojis <$> recs)
     ∧ ∃ s G, build_graph (__init__ (DataFrame_of_records recs)) = ok (s, G)).
Proof.
  split.
  - intros ->. reflexivity.
  - intros Hne.
    assert (Hp : parsed_reviews (DataFrame_of_records recs)
                 = ok (split ∘ r_emojis <$> recs)).
    { destruct recs as [|r recs]; [done |].
      unfold parsed_reviews, getitem, DataFrame_of_records.
      rewrite !lookup_insert_ne, lookup_insert_eq by done.
      cbn [bind ok]. rewrite !list_fmap_compose. apply apply_parse_strs. }
    split; [done |]. eexists _, _.
    by apply (build_graph_ok (__init__ (DataFrame_of_records recs))).
Qed.

Section crawl_error_facts.
Implicit Types (soup div d : elem) (link : pystr).

Lemma first_rated_link_skip (divs1 divs2 : list elem) :
  Forall (λ d, find (ord_str "div") (Some (ord_str "tag-rating")) d = None)
    divs1 →
  first_rated_link (divs1 ++ divs2) = first_rated_link divs2.
Proof.
  induction 1 as [|d divs1 Hd _ IH]; [done |].
  simpl. by rewrite Hd.
Qed.
End crawl_error_facts.

(** X15: crawl_nth_page decides on the first rated item alone: when that
    item has no anchor it raises AttributeError, and when its first anchor
    has no href it raises KeyError, whatever the later items hold. *)
Theorem crawl_nth_page_first_rated_item_errors (soup : elem)
    (divs1 divs2 : list elem) (d : elem) :
  find_all (ord_str "div") (Some (ord_str "catalog__list-item")) soup
  = divs1 ++ d :: divs2 →
  Forall (λ d, find (ord_str "div") (Some (ord_str "tag-rating")) d = None)
    divs1 →
  is_Some (find (ord_str "div") (Some (ord_str "tag-rating")) d) →
  (find (ord_str "a") None d = None →
   crawl_nth_page soup = raise AttributeError)
  ∧ (∀ a, find (ord_str "a") None d = Some a →
          attrs_getitem a (ord_str "href") = raise KeyError →
          crawl_nth_page soup = raise KeyError).
Proof.
  intros Hdivs Hun [t Ht]. unfold crawl_nth_page.
  rewrite Hdivs, first_rated_link_skip by done. cbn [first_rated_link].
  rewrite Ht. split.
  - by intros ->.
  - intros a -> Hh. cbn [not_none bind ok]. by rewrite Hh.
Qed.

Lemma crawl_nth_page_first_rated_item_errors_witness :
  (find (ord_str "a") None item_no_anchor = None →
   crawl_nth_page listing_page_no_anchor = raise AttributeError)
  ∧ (∀ a, find (ord_str "a") None item_no_anchor = Some a →
          attrs_getitem a (ord_str "href") = raise KeyError →
          crawl_nth_page listing_page_no_anchor = raise KeyError).
Proof.
  apply (crawl_nth_page_first_rated_item_errors listing_page_no_anchor
           [ div_ "catalog__list-item" [] ]
           [ div_ "catalog__list-item"
               [ div_ "tag-rating" [];
                 Tag (ord_str "a") [] {[ ord_str "href" := ord_str "/p/cream/" ]} [] ] ]
           item_no_anchor).
  - vm_compute. reflexivity.
  - repeat constructor.
  - vm_compute. by eexists.
Defined.

(** X16: crawl_nth_review returns the records of a page all or none: on a
    page with a product name and category, one review item without the
    body element or without the rating element makes the call raise
    instead of returning the records of the other items. *)
Theorem crawl_nth_review_malformed_item (soup : elem) (link : pystr)
    (name_tag cat_tag div : elem) :
  find (ord_str "div") (Some (ord_str "reviews-page__product-card-name")) soup
  = Some name_tag →
  find (ord_str "div") (Some (ord_str "reviews-page__product-card-category"))
    soup = Some cat_tag →
  div ∈ find_all (ord_str "div") (Some (ord_str "reviews__list-item")) soup →
  find (ord_str "div") (Some (ord_str "reviews__list-item-body-content")) div
  = None
  ∨ find (ord_str "div") (Some (ord_str "rating-stars")) div = None →
  ∃ e, crawl_nth_review soup link = raise e.
Proof.
  intros Hn Hc Hin Hbad.
  assert (Hr : review_of (get_text name_tag) (get_text cat_tag) link div
               = raise AttributeError).
  { unfold review_of. destruct Hbad as [-> | Hs]; [done |].
    destruct (find _ (Some (ord_str "reviews__list-item-body-content")) div);
      [|done].
    by rewrite Hs. }
  destruct (apply_raises _ _ _ _ Hin Hr) as [e He].
  exists e. unfold crawl_nth_review. rewrite Hn, Hc.
  cbn [not_none bind ok]. by rewrite He.
Qed.

Lemma crawl_nth_review_malformed_item_witness :
  ∃ e, crawl_nth_review review_page_bad_item sample_link = raise e.
Proof.
  eapply (crawl_nth_review_malformed_item review_page_bad_item sample_link
            _ _ item_no_body).
  - vm_compute. reflexivity.
  - vm_compute. reflexivity.
  - vm_compute. right. left.
  - left. vm_compute. reflexivity.
Defined.

(** ** Properties of the specification, continued *)

Section unordered_pair_facts.
Implicit Types (lists : list (list pystr)) (a b : pystr) (l : list pystr).

Lemma pair_count_eq lists a b :
  a ≠ b → pair_count (pair_counts lists) a b = cooccurring_reviews a b lists.
Proof.
  intros Hne. unfold pair_count, pair_counts.
  destruct (decide (str_lt a b)) as [Hlt|Hn].
  - by rewrite pair_counts_get, decide_True.
  - destruct (str_lt_trichotomy a b) as [?|[?|Hlt]]; [done | done |].
    rewrite pair_counts_get, decide_True by done.
    apply cooccurring_reviews_sym.
Qed.

Lemma pair_count_sym (ec : Counter (pystr * pystr)) a b :
  pair_count ec b a = pair_count ec a b.
Proof.
  unfold pair_count.
  destruct (str_lt_trichotomy a b) as [Hlt|[->|Hlt]]; [| done |].
  - rewrite (decide_True (P := str_lt a b)) by done.
    by rewrite decide_False by (by apply str_lt_asym).
  - rewrite (decide_True (P := str_lt b a)) by done.
    by rewrite decide_False by (by apply str_lt_asym).
Qed.

Lemma cooccurring_reviews_insert a b lists1 l lists2 :
  cooccurring_reviews a b (lists1 ++ l :: lists2)
  = cooccurring_reviews a b (lists1 ++ lists2)
    + (if decide (a ∈ l ∧ b ∈ l) then 1 else 0).
Proof.
  rewrite !cooccurring_reviews_filter, !filter_app, filter_cons, !length_app.
  destruct (decide (a ∈ l ∧ b ∈ l)); simpl; lia.
Qed.

End unordered_pair_facts.

(** C1: for every corpus of reviews and every pair of distinct tokens [a],
    [b], the pair count create_nodes produces for the pair (the entry
    under the pair's sorted key, whichever way the pair is given) equals
    the number of reviews whose token set holds both [a] and [b]; a review
    adds 1 to it when it holds both tokens and 0 otherwise, however often
    either token repeats in it.  With [a] before [b] the entry is the one
    at key [(a, b)], and the key [(b, a)] is not stored. *)
Theorem create_nodes_pair_count (self : GraphBuilder)
    (lists : list (list pystr)) (a b : pystr) :
  parsed_reviews (reviews self) = ok lists →
  a ≠ b →
  ∃ self' ec,
    create_nodes self = ok (self', ec)
    ∧ pair_count ec a b = cooccurring_reviews a b lists
    ∧ pair_count ec b a = pair_count ec a b
    ∧ cooccurring_reviews a b lists ≤ length lists
    ∧ ec = pair_counts lists
    ∧ (∀ lists1 l lists2,
         pair_count (pair_counts (lists1 ++ l :: lists2)) a b
         = pair_count (pair_counts (lists1 ++ lists2)) a b
           + (if decide (a ∈ l ∧ b ∈ l) then 1 else 0))
    ∧ (str_lt a b →
       Counter_get ec (a, b) = cooccurring_reviews a b lists
       ∧ ec !! (b, a) = None).
Proof.
  intros Hp Hne. exists (with_emoji_list self lists), (pair_counts lists).
  split; [by apply create_nodes_ok |].
  split; [by apply pair_count_eq |].
  split; [apply pair_count_sym |].
  split; [rewrite cooccurring_reviews_filter; apply filter_length_le |].
  split; [done |]. split.
  - intros lists1 l lists2. rewrite !pair_count_eq by done.
    apply cooccurring_reviews_insert.
  - intros Hlt. split.
    + unfold pair_counts. by rewrite pair_counts_get, decide_True.
    + rewrite pair_counts_lookup_eq, decide_False; [done |].
      intros [Hlt' _]. by destruct (str_lt_asym _ _ Hlt).
Qed.

Lemma create_nodes_pair_count_witness :
  ∃ self' ec,
    create_nodes (__init__ reviews_pairs) = ok (self', ec)
    ∧ pair_count ec smile heart = cooccurring_reviews smile heart lists_pairs
    ∧ pair_count ec heart smile = pair_count ec smile heart
    ∧ cooccurring_reviews smile heart lists_pairs ≤ length lists_pairs
    ∧ ec = pair_counts lists_pairs
    ∧ (∀ lists1 l lists2,
         pair_count (pair_counts (lists1 ++ l :: lists2)) smile heart
         = pair_count (pair_counts (lists1 ++ lists2)) smile heart
           + (if decide (smile ∈ l ∧ heart ∈ l) then 1 else 0))
    ∧ (str_lt smile heart →
       Counter_get ec (smile, heart)
       = cooccurring_reviews smile heart lists_pairs
       ∧ ec !! (heart, smile) = None).
Proof.
  apply (create_nodes_pair_count (__init__ reviews_pairs) lists_pairs
           smile heart).
  - vm_compute. reflexivity.
  - discriminate.
Defined.

(** C4: parse_emojis returns the empty list on a missing value (NaN, None)
    and on the empty string; on a string it returns the tokens obtained by
    splitting at whitespace, each with the whitespace at its ends removed
    (which changes none of them), in their order of occurrence and with
    repeats kept. *)
Theorem parse_emojis_spec :
  parse_emojis PNaN = ok []
  ∧ parse_emojis PNone = ok []
  ∧ parse_emojis (PStr []) = ok []
  ∧ ∀ s : pystr, ∃ toks res,
      splits s toks
      ∧ (∀ toks', splits s toks' → toks' = toks)
      ∧ parse_emojis (PStr s) = ok res
      ∧ Forall2 trim_of toks res
      ∧ (∀ res', Forall2 trim_of toks res' → res' = res)
      ∧ res = toks.
Proof.
  split; [done |]. split; [done |]. split; [done |].
  intros s. exists (split s), (split s).
  assert (Htrim : ∀ res', Forall2 trim_of (split s) res' → res' = split s).
  { intros res' H. rewrite <- (strip_split s).
    induction H as [|t t' toks res' Ht _ IH]; [done |].
    apply trim_of_strip in Ht. by rewrite fmap_cons, <- Ht, IH. }
  split; [apply splits_split |]. split; [apply splits_unique |].
  split; [apply parse_emojis_str |]. split; [|done].
  rewrite <- (strip_split s) at 2. apply Forall2_fmap_r, Forall_Forall2_diag.
  apply Forall_forall. intros t _. by apply trim_of_strip.
Qed.

(** C5, amended: parse_emojis does not raise on a string or on a missing
    marker (None, NaN).  On an integer it raises AttributeError: the
    record is not skipped, and whenever parse_emojis raises on a cell of
    the emojis column, create_nodes and build_graph raise as well instead
    of going on with the remaining records. *)
Theorem parse_emojis_raises_on_int :
  (∀ x, x = PNone ∨ x = PNaN ∨ (∃ s, x = PStr s) →
        ∃ toks, parse_emojis x = ok toks)
  ∧ (∀ z, parse_emojis (PInt z) = raise AttributeError)
  ∧ (∀ (self : GraphBuilder) col x e,
       reviews self !! "emojis" = Some col → x ∈ col →
       parse_emojis x = raise e →
       ∃ e', create_nodes self = raise e' ∧ build_graph self = raise e')
  ∧ (∀ (self : GraphBuilder) col z,
       reviews self !! "emojis" = Some col → PInt z ∈ col →
       ∃ e', create_nodes self = raise e' ∧ build_graph self = raise e').
Proof.
  assert (Habort : ∀ (self : GraphBuilder) col x e,
            reviews self !! "emojis" = Some col → x ∈ col →
            parse_emojis x = raise e →
            ∃ e', create_nodes self = raise e' ∧ build_graph self = raise e').
  { intros self col x e Hcol Hin Hx.
    destruct (apply_raises parse_emojis col x e Hin Hx) as [e' He'].
    exists e'. unfold build_graph, create_nodes, getitem.
    rewrite Hcol. simpl. by rewrite He'. }
  split; [apply parse_emojis_ok |]. split; [done |]. split; [exact Habort |].
  intros self col z Hcol Hin. by apply (Habort self col (PInt z) AttributeError).
Qed.


